(** * KILNSOFT background effects: the smoke shader and the ember particles

    A shallow embedding of [src/shader-smoke.js] (the GLSL fragment shader and
    the [WebGLHandler] class) and of [src/script.js] (the 2-D ember particle
    system), with the properties the specification states about them.

    Numbers.  GLSL [float] and JavaScript [Number] values are embedded as
    real numbers ([R]): arithmetic is exact, there is no rounding, no NaN
    and no infinity.  [Math.sin] and GLSL [sin] are the real sine.  Canvas
    dimensions are DOM [unsigned long] attributes and are embedded as [N].
    Where a rounding step decides a stated bound (the flicker of
    [drawEmber]), the expression is evaluated in binary64 as well
    ([Binary64]). *)

From Stdlib Require Import Reals Lra Lia List ZArith NArith String Bool.
From Stdlib Require Floats.
Import ListNotations.

Local Open Scope R_scope.

(* ================================================================== *)
(** * GLSL built-ins used by the fragment shader *)
(* ================================================================== *)

Module GLSL.

Record vec2 := mkVec2 { vx : R; vy : R }.
Record vec3 := mkVec3 { cr : R; cg : R; cb : R }.
Record vec4 := mkVec4 { fr : R; fg : R; fb : R; fa : R }.

(** [floor(x)]: the largest integer not above [x], as a float. *)
Definition floor (x : R) : R := IZR (Zfloor x).

(** [fract(x) = x - floor(x)]. *)
Definition fract (x : R) : R := x - floor x.

(** [mix(x, y, a) = x * (1 - a) + y * a]. *)
Definition mix (x y a : R) : R := x * (1 - a) + y * a.

(** [clamp(x, lo, hi) = min(max(x, lo), hi)]. *)
Definition clamp (x lo hi : R) : R := Rmin (Rmax x lo) hi.

(** [smoothstep(edge0, edge1, x)], by the reference formula of the GLSL
    specification: [t = clamp((x - edge0) / (edge1 - edge0), 0, 1)] and
    the result is [t * t * (3 - 2 * t)]. *)
Definition smoothstep (edge0 edge1 x : R) : R :=
  let t := clamp ((x - edge0) / (edge1 - edge0)) 0 1 in
  t * t * (3 - 2 * t).

Definition dot (p q : vec2) : R := vx p * vx q + vy p * vy q.

(** Component-wise operations on [vec2]. *)
Definition floor2 (p : vec2) : vec2 := mkVec2 (floor (vx p)) (floor (vy p)).
Definition fract2 (p : vec2) : vec2 := mkVec2 (fract (vx p)) (fract (vy p)).
Definition add2 (p q : vec2) : vec2 := mkVec2 (vx p + vx q) (vy p + vy q).
Definition scale2 (p : vec2) (k : R) : vec2 := mkVec2 (vx p * k) (vy p * k).
(** [p + s] with a scalar [s] added to both components. *)
Definition adds2 (p : vec2) (s : R) : vec2 := mkVec2 (vx p + s) (vy p + s).

(** [vec3(s)]: the scalar in the three components. *)
Definition splat3 (s : R) : vec3 := mkVec3 s s s.
Definition add3 (u v : vec3) : vec3 :=
  mkVec3 (cr u + cr v) (cg u + cg v) (cb u + cb v).
Definition scale3 (u : vec3) (k : R) : vec3 :=
  mkVec3 (cr u * k) (cg u * k) (cb u * k).
(** [mix] on [vec3] with a scalar weight. *)
Definition mix3 (u v : vec3) (a : R) : vec3 :=
  mkVec3 (mix (cr u) (cr v) a) (mix (cg u) (cg v) a) (mix (cb u) (cb v) a).

(** [vec4(rgb, a)]. *)
Definition vec4_of (rgb : vec3) (a : R) : vec4 :=
  mkVec4 (cr rgb) (cg rgb) (cb rgb) a.
Definition rgb_of (c : vec4) : vec3 := mkVec3 (fr c) (fg c) (fb c).

End GLSL.

(* ================================================================== *)
(** * The fragment shader of [shader-smoke.js] *)
(* ================================================================== *)

Module Smoke.
Import GLSL.

(** [float rand(vec2 p)]:
    [fract(sin(dot(p, vec2(1.0, 300.0))) * 43758.5453123)]. *)
Definition rand (p : vec2) : R :=
  fract (sin (dot p (mkVec2 1 300)) * 43758.5453123).

(** The Hermite curve of [noise]: [f * f * (3.0 - 2.0 * f)]. *)
Definition hermite (f : R) : R := f * f * (3 - 2 * f).

(** The return expression of [noise], on the four corner values and the
    smoothed weights [u]:
    [mix(a, b, u.x) + (c - a) * u.y * (1.0 - u.x) + (d - b) * u.x * u.y]. *)
Definition noise_blend (a b c d : R) (u : vec2) : R :=
  mix a b (vx u) + (c - a) * vy u * (1 - vx u) + (d - b) * vx u * vy u.

(** [float noise(vec2 p)]. *)
Definition noise (p : vec2) : R :=
  let i := floor2 p in
  let f := fract2 p in
  let a := rand i in
  let b := rand (add2 i (mkVec2 1 0)) in
  let c := rand (add2 i (mkVec2 0 1)) in
  let d := rand (add2 i (mkVec2 1 1)) in
  let u := mkVec2 (hermite (vx f)) (hermite (vy f)) in
  noise_blend a b c d u.

(** The bilinear interpolation the specification names, written the
    textbook way: interpolate along x on both rows, then along y. *)
Definition bilinear_reference (a b c d : R) (u : vec2) : R :=
  mix (mix a b (vx u)) (mix c d (vx u)) (vy u).

(** [#define OCTAVES 5] *)
Definition OCTAVES : nat := 5.

Section Fbm.
(** The octave function.  The shader calls [noise]; the loop is written
    over an arbitrary one so that its bound can be stated under an
    assumption on the octave function alone. *)
Variable octave : vec2 -> R.

(** The [for] loop of [fbm], with [n] iterations left: each iteration
    does [value += amplitude * noise(p); p *= 2.0; amplitude *= 0.4]. *)
Fixpoint fbm_loop (n : nat) (value amplitude : R) (p : vec2) : R :=
  match n with
  | O => value
  | S k =>
      fbm_loop k (value + amplitude * octave p) (amplitude * 0.4)
               (scale2 p 2)
  end.

(** [value = 0.0; amplitude = 0.4; for (i = 0; i < OCTAVES; i++) ...]. *)
Definition fbm_with (p : vec2) : R := fbm_loop OCTAVES 0 0.4 p.
End Fbm.

(** [float fbm(vec2 p)]. *)
Definition fbm (p : vec2) : R := fbm_with noise p.

(** The locals of [main] that the output is built from. *)
Record Fragment := mkFragment {
  baseSmoke : vec3;
  heightMask : R;
  fragColor : vec4
}.

(** [void main()], as a function of the varying [uv] and the uniforms
    [time] and [vp]. *)
Definition main_locals (uv : vec2) (time : R) (vp : vec2) : Fragment :=
  let p := uv in
  let p := mkVec2 (vx p * (vx vp / vy vp)) (vy p) in
  let gradient := mix (vy p * 0.5 + 0.1) (vy p * 0.1 + 0.9) (fbm p) in
  let speed := 0.26 in
  let details := 10 in
  let force := 0.1 in
  let shift := 0.2 in
  let fast := scale2 (mkVec2 (vx p) (vy p - time * speed)) details in
  let ns_a := fbm fast in
  let ns_b := force * fbm (adds2 (adds2 fast ns_a) time) - shift in
  let ins := fbm (mkVec2 ns_b ns_a) in
  let c1 := mix3 (splat3 0.3) (splat3 0.9) (ins + shift) in
  let baseSmoke := add3 c1 (splat3 (ins - gradient)) in
  let heightMask := smoothstep 0.5 0 (vy p) in
  mkFragment baseSmoke heightMask
             (vec4_of (scale3 baseSmoke heightMask) heightMask).

Definition main (uv : vec2) (time : R) (vp : vec2) : vec4 :=
  fragColor (main_locals uv time vp).

End Smoke.

(* ================================================================== *)
(** * The [WebGLHandler] class of [shader-smoke.js] *)
(* ================================================================== *)

Module Handler.

Inductive ShaderType := VERTEX_SHADER | FRAGMENT_SHADER.

(** The two template literals holding the GLSL text.  Only the driver
    reads them, so the text itself is kept abstract. *)
Inductive Source := vertexShaderSource | fragmentShaderSource.

(** What the browser and its GL driver answer to the handler's queries. *)
Record Host := mkHost {
  (** does [canvas.getContext('webgl2')] return a context *)
  has_webgl2 : bool;
  (** [getShaderParameter(sh, COMPILE_STATUS)] after compiling [src] *)
  COMPILE_STATUS : ShaderType -> Source -> bool;
  (** [getShaderInfoLog(sh)] *)
  shaderInfoLog : ShaderType -> Source -> string;
  (** [getProgramParameter(program, LINK_STATUS)] after linking a program
      with these shader objects attached *)
  LINK_STATUS : list ShaderType -> bool;
  (** [getProgramInfoLog(program)] *)
  programInfoLog : list ShaderType -> string
}.

(** The calls the handler makes on the context, the console and the
    window, in the order it makes them.  One shader object is created per
    stage, so a shader object is named by its stage; a uniform location is
    named by the uniform. *)
Inductive Effect :=
| createProgram
| createShader (ty : ShaderType)
| shaderSource (ty : ShaderType) (src : Source)
| compileShader (ty : ShaderType)
| deleteShader (ty : ShaderType)
| attachShader (ty : ShaderType)
| linkProgram
| useProgram
| getUniformLocation (name : string)
| viewport (x y w h : N)
| uniform1f (loc : string) (v : R)
| uniform2f (loc : string) (v0 v1 : N)
| drawArrays (first count : nat)
| console_error (args : list string)
| addEventListener_resize
| requestAnimationFrame_render.

(** Callbacks the handler registers with the window. *)
Inductive Callback := cb_render | cb_resize.

(** The handler instance together with the part of the page it touches. *)
Record World := mkWorld {
  log : list Effect;                 (** calls made so far, oldest first *)
  attached : list ShaderType;        (** shaders attached to [program] *)
  cn_width : N;                      (** [this.cn.width] *)
  cn_height : N;                     (** [this.cn.height] *)
  innerWidth : N;                    (** [window.innerWidth] *)
  innerHeight : N;                   (** [window.innerHeight] *)
  startTime : Z;                     (** [this.startTime], milliseconds *)
  raf_queue : list Callback;         (** pending animation-frame callbacks *)
  resize_listeners : list Callback   (** listeners of the resize event *)
}.

(** ** A state monad over [World] *)

Definition IO (A : Type) : Type := World -> A * World.
Definition ret {A} (a : A) : IO A := fun w => (a, w).
Definition bind {A B} (m : IO A) (k : A -> IO B) : IO B :=
  fun w => let (a, w') := m w in k a w'.
Definition exec {A} (m : IO A) (w : World) : World := snd (m w).

Declare Scope io_scope.
Delimit Scope io_scope with io.
Notation "x <- m ;; k" := (bind m (fun x => k))
  (at level 61, m at next level, right associativity) : io_scope.
Notation "m ;; k" := (bind m (fun _ => k))
  (at level 61, right associativity) : io_scope.
Local Open Scope io_scope.

Definition emit (e : Effect) : IO unit := fun w =>
  (tt, mkWorld (log w ++ [e]) (attached w) (cn_width w) (cn_height w)
               (innerWidth w) (innerHeight w) (startTime w)
               (raf_queue w) (resize_listeners w)).

Definition get : IO World := fun w => (w, w).

Definition set_attached (l : list ShaderType) : IO unit := fun w =>
  (tt, mkWorld (log w) l (cn_width w) (cn_height w)
               (innerWidth w) (innerHeight w) (startTime w)
               (raf_queue w) (resize_listeners w)).

Definition set_cn_size (cw ch : N) : IO unit := fun w =>
  (tt, mkWorld (log w) (attached w) cw ch
               (innerWidth w) (innerHeight w) (startTime w)
               (raf_queue w) (resize_listeners w)).

Definition set_window_size (iw ih : N) : IO unit := fun w =>
  (tt, mkWorld (log w) (attached w) (cn_width w) (cn_height w)
               iw ih (startTime w) (raf_queue w) (resize_listeners w)).

Definition set_startTime (t0 : Z) : IO unit := fun w =>
  (tt, mkWorld (log w) (attached w) (cn_width w) (cn_height w)
               (innerWidth w) (innerHeight w) t0
               (raf_queue w) (resize_listeners w)).

Definition set_raf_queue (q : list Callback) : IO unit := fun w =>
  (tt, mkWorld (log w) (attached w) (cn_width w) (cn_height w)
               (innerWidth w) (innerHeight w) (startTime w)
               q (resize_listeners w)).

Definition set_resize_listeners (q : list Callback) : IO unit := fun w =>
  (tt, mkWorld (log w) (attached w) (cn_width w) (cn_height w)
               (innerWidth w) (innerHeight w) (startTime w)
               (raf_queue w) q).

Section WithHost.
Variable host : Host.

(** [_compile(src, type)] *)
Definition _compile (src : Source) (type : ShaderType) : IO unit :=
  emit (createShader type) ;;
  emit (shaderSource type src) ;;
  emit (compileShader type) ;;
  if negb (COMPILE_STATUS host type src) then
    emit (console_error [shaderInfoLog host type src]) ;;
    emit (deleteShader type)
  else
    emit (attachShader type) ;;
    w <- get ;;
    set_attached (attached w ++ [type]).

(** [_resize()] *)
Definition _resize : IO unit :=
  w <- get ;;
  set_cn_size (innerWidth w) (innerHeight w) ;;
  emit (viewport 0 0 (innerWidth w) (innerHeight w)).

(** [requestAnimationFrame(this.render)] *)
Definition requestAnimationFrame : IO unit :=
  emit requestAnimationFrame_render ;;
  w <- get ;;
  set_raf_queue (raf_queue w ++ [cb_render]).

(** [render], run when [Date.now()] is [now]. *)
Definition render (now : Z) : IO unit :=
  w <- get ;;
  let t := IZR (now - startTime w) / 1000 in
  emit (uniform1f "time" t) ;;
  emit (uniform2f "vp" (cn_width w) (cn_height w)) ;;
  emit (drawArrays 0 6) ;;
  requestAnimationFrame.

(** [constructor(canvas)], run when [Date.now()] is [now]. *)
Definition constructor (now : Z) : IO unit :=
  if negb (has_webgl2 host) then ret tt
  else
    emit createProgram ;;
    _compile vertexShaderSource VERTEX_SHADER ;;
    _compile fragmentShaderSource FRAGMENT_SHADER ;;
    emit linkProgram ;;
    w <- get ;;
    if negb (LINK_STATUS host (attached w)) then
      emit (console_error ["WebGL program failed to link:"%string;
                           programInfoLog host (attached w)])
    else
      emit useProgram ;;
      emit (getUniformLocation "time") ;;
      emit (getUniformLocation "vp") ;;
      _resize ;;
      emit addEventListener_resize ;;
      (w <- get ;; set_resize_listeners (resize_listeners w ++ [cb_resize])) ;;
      set_startTime now ;;
      render now.

(** What the page does to the handler after the script has run. *)
Inductive HostEvent :=
| AnimationFrame (now : Z)          (** the display refreshes *)
| WindowResize (iw ih : N).         (** the window is resized *)

Definition call (now : Z) (cb : Callback) : IO unit :=
  match cb with
  | cb_render => render now
  | cb_resize => _resize
  end.

Fixpoint call_all (now : Z) (cbs : list Callback) : IO unit :=
  match cbs with
  | [] => ret tt
  | cb :: rest => call now cb ;; call_all now rest
  end.

(** An animation frame runs the callbacks queued before it, once each;
    a resize runs the resize listeners. *)
Definition deliver (ev : HostEvent) : IO unit :=
  match ev with
  | AnimationFrame now =>
      w <- get ;;
      set_raf_queue [] ;;
      call_all now (raf_queue w)
  | WindowResize iw ih =>
      set_window_size iw ih ;;
      w <- get ;;
      call_all 0%Z (resize_listeners w)
  end.

Fixpoint deliver_all (evs : list HostEvent) : IO unit :=
  match evs with
  | [] => ret tt
  | ev :: rest => deliver ev ;; deliver_all rest
  end.

(** The page when the script starts: a fresh canvas (300 x 150 by
    default) in a window of the given inner size. *)
Definition fresh_page (iw ih : N) : World :=
  mkWorld [] [] 300 150 iw ih 0 [] [].

(** [new WebGLHandler(canvas)] on a fresh page. *)
Definition boot (iw ih : N) (now : Z) : World :=
  exec (constructor now) (fresh_page iw ih).

(** The page after the script has run and the events were delivered. *)
Definition run (iw ih : N) (now : Z) (evs : list HostEvent) : World :=
  exec (deliver_all evs) (boot iw ih now).

End WithHost.

(** The stage each source is compiled for in the constructor. *)
Definition source_of (ty : ShaderType) : Source :=
  match ty with
  | VERTEX_SHADER => vertexShaderSource
  | FRAGMENT_SHADER => fragmentShaderSource
  end.

(** A draw call in the log. *)
Definition is_draw (e : Effect) : bool :=
  match e with drawArrays _ _ => true | _ => false end.

(** The link rule of OpenGL ES 3.0 (section 2.12.3): linking fails when
    the program does not contain both a vertex and a fragment shader. *)
Definition link_needs_both_stages (host : Host) : Prop :=
  forall att, LINK_STATUS host att = true ->
              In VERTEX_SHADER att /\ In FRAGMENT_SHADER att.

Definition stage_eqb (a b : ShaderType) : bool :=
  match a, b with
  | VERTEX_SHADER, VERTEX_SHADER | FRAGMENT_SHADER, FRAGMENT_SHADER => true
  | _, _ => false
  end.

(** A driver's link verdict that follows the rule and is otherwise
    lenient: the program links exactly when both stages are attached. *)
Definition links_when_complete (att : list ShaderType) : bool :=
  existsb (stage_eqb VERTEX_SHADER) att
  && existsb (stage_eqb FRAGMENT_SHADER) att.

(** A host whose driver rejects the fragment shader source. *)
Definition host_rejecting_fragment : Host :=
  mkHost true
         (fun ty _ => match ty with
                      | VERTEX_SHADER => true
                      | FRAGMENT_SHADER => false
                      end)
         (fun _ _ => "ERROR: 0:1: syntax error"%string)
         links_when_complete
         (fun _ => "missing fragment shader"%string).

(** The draw calls among the calls made. *)
Definition draw_calls (l : list Effect) : list Effect := filter is_draw l.

(** A handler with no animation-frame callback queued and no resize
    listener registered: nothing of it will ever run again. *)
Definition inert (w : World) : Prop :=
  raf_queue w = [] /\ resize_listeners w = [].

End Handler.


(* ================================================================== *)
(** * The ember particle system of [script.js] *)
(* ================================================================== *)

Module Ember.

(** The canvas: [canvas.width] and [canvas.height]. *)
Record Canvas := mkCanvas { width : N; height : N }.

Definition widthR (cv : Canvas) : R := IZR (Z.of_N (width cv)).
Definition heightR (cv : Canvas) : R := IZR (Z.of_N (height cv)).

(** One element of [particles], with the fields of the object literal. *)
Record Particle := mkParticle {
  baseX : R;
  x : R;
  y : R;
  baseSize : R;
  size : R;
  speed : R;
  drift : R;
  flickerPhase : R;
  loopRadius : R;
  angle : R;
  angularSpeed : R
}.

(** Field assignments [p.f = v]. *)
Definition set_baseX (p : Particle) (v : R) : Particle :=
  mkParticle v (x p) (y p) (baseSize p) (size p) (speed p) (drift p)
             (flickerPhase p) (loopRadius p) (angle p) (angularSpeed p).
Definition set_x (p : Particle) (v : R) : Particle :=
  mkParticle (baseX p) v (y p) (baseSize p) (size p) (speed p) (drift p)
             (flickerPhase p) (loopRadius p) (angle p) (angularSpeed p).
Definition set_y (p : Particle) (v : R) : Particle :=
  mkParticle (baseX p) (x p) v (baseSize p) (size p) (speed p) (drift p)
             (flickerPhase p) (loopRadius p) (angle p) (angularSpeed p).
Definition set_size (p : Particle) (v : R) : Particle :=
  mkParticle (baseX p) (x p) (y p) (baseSize p) v (speed p) (drift p)
             (flickerPhase p) (loopRadius p) (angle p) (angularSpeed p).
Definition set_loopRadius (p : Particle) (v : R) : Particle :=
  mkParticle (baseX p) (x p) (y p) (baseSize p) (size p) (speed p) (drift p)
             (flickerPhase p) v (angle p) (angularSpeed p).
Definition set_angle (p : Particle) (v : R) : Particle :=
  mkParticle (baseX p) (x p) (y p) (baseSize p) (size p) (speed p) (drift p)
             (flickerPhase p) (loopRadius p) v (angularSpeed p).

(** What [drawEmber] paints: a disc of radius [arc_r] centred at
    [(arc_x, arc_y)], filled with the radial gradient. *)
Record Arc := mkArc { arc_x : R; arc_y : R; arc_r : R }.

(** [const EMBER_COUNT = 90] *)
Definition EMBER_COUNT : nat := 90.

(** The flicker scalar of [drawEmber]:
    [0.3 + 0.2 * Math.sin(t * 0.02 + p.flickerPhase)]. *)
Definition flicker (p : Particle) (t : R) : R :=
  0.3 + 0.2 * sin (t * 0.02 + flickerPhase p).

(** [drawEmber(p, t)]: sets [p.size] and paints the ember. *)
Definition drawEmber (p : Particle) (t : R) : Particle * Arc :=
  let p := set_size p (baseSize p * flicker p t) in
  (p, mkArc (x p) (y p) (size p)).

(** [p.y -= p.speed] and the loop / drift branch. *)
Definition advance (p : Particle) : Particle :=
  let p := set_y p (y p - speed p) in
  if Rlt_dec 0 (loopRadius p) then
    let p := set_angle p (angle p + angularSpeed p) in
    let p := set_baseX p (baseX p + drift p) in
    set_x p (baseX p + sin (angle p) * loopRadius p)
  else
    set_x p (x p + drift p).

(** The two horizontal wrap statements:
    [if (p.x < -10) p.x = canvas.width + 10;]
    [if (p.x > canvas.width + 10) p.x = -10;]. *)
Definition wrap (cv : Canvas) (p : Particle) : Particle :=
  let p := if Rlt_dec (x p) (-10) then set_x p (widthR cv + 10) else p in
  if Rgt_dec (x p) (widthR cv + 10) then set_x p (-10) else p.

Section WithRandom.

(** The successive results of [Math.random()]. *)
Variable random_values : nat -> R.

(** ** A state monad over the number of [Math.random()] calls made *)

Definition Rand (A : Type) : Type := nat -> A * nat.
Definition ret {A} (a : A) : Rand A := fun k => (a, k).
Definition bind {A B} (m : Rand A) (f : A -> Rand B) : Rand B :=
  fun k => let (a, k') := m k in f a k'.

Declare Scope rand_scope.
Delimit Scope rand_scope with rand.
Notation "v <- m ;; f" := (bind m (fun v => f))
  (at level 61, m at next level, right associativity) : rand_scope.
Local Open Scope rand_scope.

(** [Math.random()] *)
Definition Math_random : Rand R := fun k => (random_values k, S k).

(** [Math.random() < 0.4 ? Math.random() * 20 + 8 : 0] *)
Definition roll_loopRadius : Rand R :=
  r <- Math_random ;;
  if Rlt_dec r 0.4 then
    r' <- Math_random ;; ret (r' * 20 + 8)
  else ret 0.

(** The body of the start-up loop: one particle pushed on [particles]. *)
Definition new_particle (cv : Canvas) : Rand Particle :=
  r <- Math_random ;; let baseSize := r * 3 + 2 in
  r <- Math_random ;; let baseX := r * widthR cv in
  r <- Math_random ;; let y := r * heightR cv in
  r <- Math_random ;; let speed := r * 1.2 + 0.8 in
  r <- Math_random ;; let drift := (r - 0.5) * 0.4 in
  r <- Math_random ;; let flickerPhase := r * PI * 2 in
  loopRadius <- roll_loopRadius ;;
  r <- Math_random ;; let angle := r * PI * 2 in
  r <- Math_random ;; let angularSpeed := r * 0.08 + 0.04 in
  let p := mkParticle baseX 0 y baseSize baseSize speed drift flickerPhase
                      loopRadius angle angularSpeed in
  ret (set_x p (Ember.baseX p + sin (Ember.angle p) * Ember.loopRadius p)).

(** [for (let i = 0; i < n; i++) particles.push(...)] *)
Fixpoint new_particles (cv : Canvas) (n : nat) : Rand (list Particle) :=
  match n with
  | O => ret []
  | S n' =>
      p <- new_particle cv ;;
      ps <- new_particles cv n' ;;
      ret (p :: ps)
  end.

(** The particle collection after the start-up loop. *)
Definition init (cv : Canvas) : Rand (list Particle) :=
  new_particles cv EMBER_COUNT.

(** The respawn statement: [if (p.y < -p.size) { ... }]. *)
Definition respawn (cv : Canvas) (p : Particle) : Rand Particle :=
  if Rlt_dec (y p) (- size p) then
    let p := set_y p (heightR cv + size p) in
    r <- Math_random ;; let p := set_baseX p (r * widthR cv) in
    r <- Math_random ;; let p := set_angle p (r * PI * 2) in
    l <- roll_loopRadius ;; let p := set_loopRadius p l in
    ret (set_x p (baseX p + sin (angle p) * loopRadius p))
  else ret p.

(** The body of [particles.forEach(p => { ... })] for one particle. *)
Definition update (cv : Canvas) (t : R) (p : Particle) : Rand (Particle * Arc) :=
  let (p, arc) := drawEmber p t in
  let p := advance p in
  p <- respawn cv p ;;
  ret (wrap cv p, arc).

(** [particles.forEach(...)]: the particles are updated in place, in
    collection order. *)
Fixpoint forEach (cv : Canvas) (t : R) (ps : list Particle)
  : Rand (list Particle * list Arc) :=
  match ps with
  | [] => ret ([], [])
  | p :: rest =>
      pa <- update cv t p ;;
      ra <- forEach cv t rest ;;
      ret (fst pa :: fst ra, snd pa :: snd ra)
  end.

(** One call of [animateParticles], with the canvas size and the value of
    [performance.now()] at that frame. *)
Definition animateParticles (cv : Canvas) (t : R) (ps : list Particle)
  : Rand (list Particle * list Arc) :=
  forEach cv t ps.

(** The frames of the animation loop, each with its canvas size and clock;
    the result is the particle collection after the last one. *)
Fixpoint animate (frames : list (Canvas * R)) (ps : list Particle)
  : Rand (list Particle) :=
  match frames with
  | [] => ret ps
  | (cv, t) :: rest =>
      pa <- animateParticles cv t ps ;;
      animate rest (fst pa)
  end.

(** The particle collection after start-up on canvas [cv0] and the given
    frames. *)
Definition particles_after (cv0 : Canvas) (frames : list (Canvas * R))
  : list Particle :=
  fst ((ps <- init cv0 ;; animate frames ps) O).

End WithRandom.

(** [Math.random()] returns a value in [[0, 1)]. *)
Definition random_in_range (random_values : nat -> R) : Prop :=
  forall k, 0 <= random_values k < 1.

(** The ranges the start-up loop draws a particle's fields from. *)
Definition fresh_ember (cv : Canvas) (p : Particle) : Prop :=
  2 <= baseSize p < 5
  /\ size p = baseSize p
  /\ 0 <= baseX p <= widthR cv
  /\ 0 <= y p <= heightR cv
  /\ 0.8 <= speed p < 2
  /\ -0.2 <= drift p < 0.2
  /\ 0 <= flickerPhase p < 2 * PI
  /\ (loopRadius p = 0 \/ 8 <= loopRadius p < 28)
  /\ 0 <= angle p < 2 * PI
  /\ 0.04 <= angularSpeed p < 0.12
  /\ x p = baseX p + sin (angle p) * loopRadius p.

(** What holds of an ember from start-up on, whatever happens to it. *)
Definition lifelong (p : Particle) : Prop :=
  2 <= baseSize p < 5
  /\ 0.8 <= speed p < 2
  /\ -0.2 <= drift p < 0.2
  /\ 0 <= flickerPhase p < 2 * PI
  /\ 0.04 <= angularSpeed p < 0.12
  /\ (loopRadius p = 0 \/ 8 <= loopRadius p < 28)
  /\ 0 <= angle p.

(** ** Concrete inputs used to exercise the statements below *)

(** An 800 x 600 canvas. *)
Definition canvas_800x600 : Canvas := mkCanvas 800 600.

(** [Math.random()] returning 0 at every call. *)
Definition always_zero : nat -> R := fun _ => 0.

(** An ember drifting without loop whose radius is 3 at clock 0 (base
    radius 10, flicker 0.3), at height [y0], rising by 1 per frame. *)
Definition ember_at (y0 : R) : Particle :=
  mkParticle 100 100 y0 10 10 1 0.1 0 0 0 0.05.

(** A looping ember that has drifted past the left margin. *)
Definition looping_ember : Particle :=
  mkParticle (-25) (-20) 300 4 1.2 1 (-0.2) 0 10 0 0.05.

End Ember.

(* ================================================================== *)
(** * The vertex shader of [shader-smoke.js] *)
(* ================================================================== *)

Module Vertex.
Import GLSL.

(** [const vec2 positions[6]] *)
Definition positions : list vec2 :=
  [ mkVec2 (-1) (-1); mkVec2 1 (-1); mkVec2 (-1) 1;
    mkVec2 (-1) 1; mkVec2 1 (-1); mkVec2 1 1 ].

(** What the vertex shader writes: the varying [uv] and [gl_Position]. *)
Record VertexOut := mkVertexOut { uv : vec2; gl_Position : vec4 }.

(** [void main()] for vertex number [gl_VertexID].  Indexing [positions]
    outside its six elements has no defined result: [None]. *)
Definition main (gl_VertexID : nat) : option VertexOut :=
  match nth_error positions gl_VertexID with
  | Some pos =>
      Some (mkVertexOut (adds2 (scale2 pos 0.5) 0.5)
                        (mkVec4 (vx pos) (vy pos) 0 1))
  | None => None
  end.

(** The vertex numbers of the triangles [drawArrays(TRIANGLES, first,
    count)] assembles: consecutive triples, a trailing incomplete one
    being ignored. *)
Definition triangle_ids (first count : nat) : list (nat * nat * nat) :=
  map (fun i => (first + 3 * i, first + 3 * i + 1, first + 3 * i + 2)%nat)
      (seq 0 (count / 3)).

(** The value at barycentric weights [(a, b, c)] of a quantity given at
    the three corners of a triangle (all [gl_Position.w] being 1, the
    interpolation of a varying is this linear one). *)
Definition interpolate (a b c : R) (p q r : vec2) : vec2 :=
  mkVec2 (a * vx p + b * vx q + c * vx r) (a * vy p + b * vy q + c * vy r).

Definition clip_xy (v : VertexOut) : vec2 :=
  mkVec2 (fr (gl_Position v)) (fg (gl_Position v)).

(** The draw call [drawArrays(TRIANGLES, first, count)] produces, at the
    clip-space point [clip], a fragment whose varying is [uv_in]. *)
Definition rasterizes (first count : nat) (clip uv_in : vec2) : Prop :=
  exists i j k vi vj vk a b c,
    In (i, j, k) (triangle_ids first count)
    /\ main i = Some vi /\ main j = Some vj /\ main k = Some vk
    /\ 0 <= a /\ 0 <= b /\ 0 <= c /\ a + b + c = 1
    /\ clip = interpolate a b c (clip_xy vi) (clip_xy vj) (clip_xy vk)
    /\ uv_in = interpolate a b c (uv vi) (uv vj) (uv vk).

End Vertex.

(* ================================================================== *)
(** * The intermediate values of the fragment shader's [main] *)
(* ================================================================== *)

Module SmokeStages.
Import GLSL Smoke.

(** [p] after [p.x *= vp.x / vp.y]. *)
Definition corrected (uv vp : vec2) : vec2 :=
  mkVec2 (vx uv * (vx vp / vy vp)) (vy uv).

(** [gradient] *)
Definition gradient (uv vp : vec2) : R :=
  let p := corrected uv vp in
  mix (vy p * 0.5 + 0.1) (vy p * 0.1 + 0.9) (fbm p).

(** [fast] *)
Definition fast (uv : vec2) (time : R) (vp : vec2) : vec2 :=
  let p := corrected uv vp in
  scale2 (mkVec2 (vx p) (vy p - time * 0.26)) 10.

(** [ns_a] *)
Definition ns_a (uv : vec2) (time : R) (vp : vec2) : R :=
  fbm (fast uv time vp).

(** [ns_b] *)
Definition ns_b (uv : vec2) (time : R) (vp : vec2) : R :=
  0.1 * fbm (adds2 (adds2 (fast uv time vp) (ns_a uv time vp)) time) - 0.2.

(** [ins] *)
Definition ins (uv : vec2) (time : R) (vp : vec2) : R :=
  fbm (mkVec2 (ns_b uv time vp) (ns_a uv time vp)).

End SmokeStages.

(* ================================================================== *)
(** * Counting what a run of the handler did *)
(* ================================================================== *)

Module HandlerRun.
Import Handler.

Definition is_frame (ev : HostEvent) : bool :=
  match ev with AnimationFrame _ => true | WindowResize _ _ => false end.

(** The number of animation frames among the events. *)
Definition frame_count (evs : list HostEvent) : nat :=
  List.length (filter is_frame evs).

(** A host on which the context is available, both stages compile and
    the program links. *)
Definition setup_succeeds (host : Host) : Prop :=
  has_webgl2 host = true
  /\ COMPILE_STATUS host VERTEX_SHADER vertexShaderSource = true
  /\ COMPILE_STATUS host FRAGMENT_SHADER fragmentShaderSource = true
  /\ LINK_STATUS host [VERTEX_SHADER; FRAGMENT_SHADER] = true.

(** A host on which everything succeeds. *)
Definition host_accepting_all : Host :=
  mkHost true (fun _ _ => true) (fun _ _ => ""%string)
         links_when_complete (fun _ => ""%string).

(** A browser without WebGL 2. *)
Definition host_without_webgl2 : Host :=
  mkHost false (fun _ _ => true) (fun _ _ => ""%string)
         links_when_complete (fun _ => ""%string).

(** The calls one event makes on a running handler in state [w]. *)
Definition calls_of_event (w : World) (ev : HostEvent) : list Effect :=
  match ev with
  | AnimationFrame now =>
      [uniform1f "time" (IZR (now - startTime w) / 1000);
       uniform2f "vp" (cn_width w) (cn_height w);
       drawArrays 0 6;
       requestAnimationFrame_render]
  | WindowResize iw ih => [viewport 0 0 iw ih]
  end.

(** The handler when the render loop runs: one frame callback queued,
    one resize listener registered, the canvas as large as the window. *)
Definition running (w : World) : Prop :=
  raf_queue w = [cb_render] /\ resize_listeners w = [cb_resize]
  /\ cn_width w = innerWidth w /\ cn_height w = innerHeight w.

(** The inner size of the window after the events, from [(iw, ih)]. *)
Fixpoint window_after (iw ih : N) (evs : list HostEvent) : N * N :=
  match evs with
  | [] => (iw, ih)
  | AnimationFrame _ :: rest => window_after iw ih rest
  | WindowResize iw' ih' :: rest => window_after iw' ih' rest
  end.

Local Open Scope io_scope.

(** [constructor(canvas)] with its two readings of the clock kept apart:
    [Date.now()] is [start_clock] where [this.startTime] is assigned and
    [render_clock] where the first [render()] reads it.  The
    [Handler.constructor] above is the case of a clock that does not tick
    between the two: [constructor host now = constructor_at host now now]. *)
Definition constructor_at (host : Host) (start_clock render_clock : Z)
  : IO unit :=
  if negb (has_webgl2 host) then ret tt
  else
    emit createProgram ;;
    _compile host vertexShaderSource VERTEX_SHADER ;;
    _compile host fragmentShaderSource FRAGMENT_SHADER ;;
    emit linkProgram ;;
    w <- get ;;
    if negb (LINK_STATUS host (attached w)) then
      emit (console_error ["WebGL program failed to link:"%string;
                           programInfoLog host (attached w)])
    else
      emit useProgram ;;
      emit (getUniformLocation "time") ;;
      emit (getUniformLocation "vp") ;;
      _resize ;;
      emit addEventListener_resize ;;
      (w <- get ;; set_resize_listeners (resize_listeners w ++ [cb_resize])) ;;
      set_startTime start_clock ;;
      render render_clock.

End HandlerRun.

(* ================================================================== *)
(** * The flicker as the engine computes it *)
(* ================================================================== *)

Module Binary64.
Import Floats.
#[local] Set Warnings "-inexact-float".

(** The flicker expression of [drawEmber],
    [0.3 + 0.2 * Math.sin(t * 0.02 + p.flickerPhase)], evaluated as
    JavaScript does, in IEEE 754 binary64, on the value [s] that
    [Math.sin] returned. *)
Definition flicker (s : float) : float := (0.3 + 0.2 * s)%float.

End Binary64.


(* ================================================================== *)
(** * Properties of the fragment shader *)
(* ================================================================== *)

Section SmokeFacts.
Import GLSL Smoke.

Lemma fract_range (v : R) : 0 <= fract v < 1.
Proof.
  unfold fract, floor.
  pose proof (Zfloor_bound v) as [Hlo Hhi].
  split; lra.
Qed.

Lemma rand_range (p : vec2) : 0 <= rand p < 1.
Proof. unfold rand. apply fract_range. Qed.

Lemma hermite_range (f : R) : 0 <= f <= 1 -> 0 <= hermite f <= 1.
Proof.
  intros [H0 H1]. unfold hermite. split.
  - apply Rmult_le_pos; [apply Rmult_le_pos; lra | lra].
  - assert (0 <= (1 - f) * (1 - f) * (1 + 2 * f)) as H.
    { apply Rmult_le_pos; [apply Rmult_le_pos; lra | lra]. }
    replace (f * f * (3 - 2 * f))
      with (1 - (1 - f) * (1 - f) * (1 + 2 * f)) by ring.
    lra.
Qed.

Lemma hermite_monotone (s t : R) :
  0 <= s -> s <= t -> t <= 1 -> hermite s <= hermite t.
Proof.
  intros Hs Hst Ht. unfold hermite.
  assert (0 <= (t - s) * (3 * (t + s) - 2 * (t * t + t * s + s * s))) as H.
  { apply Rmult_le_pos; [lra |].
    assert (0 <= t * (1 - t)) by (apply Rmult_le_pos; lra).
    assert (0 <= s * (1 - s)) by (apply Rmult_le_pos; lra).
    assert (0 <= s * (1 - t)) by (apply Rmult_le_pos; lra).
    assert (0 <= t * (1 - s)) by (apply Rmult_le_pos; lra).
    lra. }
  replace (t * t * (3 - 2 * t))
    with (s * s * (3 - 2 * s)
          + (t - s) * (3 * (t + s) - 2 * (t * t + t * s + s * s))) by ring.
  lra.
Qed.

Lemma mix_range (lo hi v w a : R) :
  0 <= a <= 1 -> lo <= v <= hi -> lo <= w <= hi -> lo <= mix v w a <= hi.
Proof.
  intros [Ha0 Ha1] [Hv0 Hv1] [Hw0 Hw1]. unfold mix.
  assert (0 <= (v - lo) * (1 - a)) by (apply Rmult_le_pos; lra).
  assert (0 <= (w - lo) * a) by (apply Rmult_le_pos; lra).
  assert (0 <= (hi - v) * (1 - a)) by (apply Rmult_le_pos; lra).
  assert (0 <= (hi - w) * a) by (apply Rmult_le_pos; lra).
  split; lra.
Qed.

Lemma noise_blend_bilinear (a b c d : R) (u : vec2) :
  noise_blend a b c d u = bilinear_reference a b c d u.
Proof. unfold noise_blend, bilinear_reference, mix. ring. Qed.

Lemma noise_blend_range (a b c d : R) (u : vec2) :
  0 <= a <= 1 -> 0 <= b <= 1 -> 0 <= c <= 1 -> 0 <= d <= 1 ->
  0 <= vx u <= 1 -> 0 <= vy u <= 1 ->
  0 <= noise_blend a b c d u <= 1.
Proof.
  intros Ha Hb Hc Hd Hx Hy.
  rewrite noise_blend_bilinear. unfold bilinear_reference.
  apply mix_range; [assumption | |]; apply mix_range; assumption.
Qed.

Lemma rand_range_closed (p : vec2) : 0 <= rand p <= 1.
Proof. pose proof (rand_range p). lra. Qed.

Lemma noise_range (p : vec2) : 0 <= noise p <= 1.
Proof.
  unfold noise. cbv zeta.
  apply noise_blend_range; try apply rand_range_closed; cbn [vx vy fract2];
    apply hermite_range;
    match goal with |- 0 <= fract ?v <= 1 =>
      pose proof (fract_range v); lra end.
Qed.

(** The loop adds to [value] at most the amplitudes it runs through. *)
Lemma fbm_loop_bounds (octave : vec2 -> R) :
  (forall q, 0 <= octave q <= 1) ->
  forall n value amplitude p,
    0 <= amplitude ->
    value <= fbm_loop octave n value amplitude p
    /\ fbm_loop octave n value amplitude p
       <= value + amplitude * (1 - 0.4 ^ n) / (1 - 0.4).
Proof.
  intros Hoct. induction n as [|n IH]; intros value amplitude p Hamp.
  - cbn [fbm_loop pow]. split; lra.
  - cbn [fbm_loop pow].
    assert (0 <= amplitude * 0.4) as Hamp' by (apply Rmult_le_pos; lra).
    destruct (IH (value + amplitude * octave p) (amplitude * 0.4)
                 (scale2 p 2) Hamp') as [Hlo Hhi].
    pose proof (Hoct p) as [Ho0 Ho1].
    assert (0 <= amplitude * octave p) by (apply Rmult_le_pos; lra).
    assert (0 <= amplitude * (1 - octave p)) by (apply Rmult_le_pos; lra).
    split; [lra |].
    eapply Rle_trans; [exact Hhi |].
    replace (amplitude * (1 - 0.4 * 0.4 ^ n) / (1 - 0.4))
      with (amplitude + amplitude * 0.4 * (1 - 0.4 ^ n) / (1 - 0.4))
      by (field; lra).
    lra.
Qed.

Lemma smoothstep_half_zero (v : R) :
  smoothstep 0.5 0 v = hermite (clamp (1 - 2 * v) 0 1).
Proof.
  unfold smoothstep, hermite. cbv zeta.
  replace ((v - 0.5) / (0 - 0.5)) with (1 - 2 * v) by lra.
  reflexivity.
Qed.

Lemma clamp_range (v : R) : 0 <= clamp v 0 1 <= 1.
Proof.
  unfold clamp, Rmin, Rmax.
  destruct (Rle_dec v 0); destruct (Rle_dec _ 1); lra.
Qed.

Lemma clamp_monotone (v w : R) : v <= w -> clamp v 0 1 <= clamp w 0 1.
Proof.
  intros H. unfold clamp, Rmin, Rmax.
  destruct (Rle_dec v 0); destruct (Rle_dec w 0);
    repeat match goal with |- context [Rle_dec ?a ?b] =>
      destruct (Rle_dec a b) end; lra.
Qed.

End SmokeFacts.

Section SmokeClaims.
Import GLSL Smoke.

(** C7.  The hash [rand] is a function of its argument alone, so equal
    coordinate pairs give equal values, and every value it returns lies in
    the half-open interval from 0 to 1. *)
Theorem rand_deterministic_unit_interval :
  forall p q : vec2,
    rand p = fract (sin (dot p (mkVec2 1 300)) * 43758.5453123)
    /\ (vx p = vx q /\ vy p = vy q -> rand p = rand q)
    /\ 0 <= rand p < 1.
Proof.
  intros [px py] [qx qy]. split; [reflexivity | split].
  - cbn [vx vy]. intros [-> ->]. reflexivity.
  - apply rand_range.
Qed.

(** C6.  For all corner values and all weights in [0,1], the expression
    [noise] returns equals the textbook bilinear interpolation of the four
    corners; with Hermite weights of fractional offsets in [0,1) and
    corner values in [0,1] it lies in [0,1], and so does [noise p] for
    every [p]. *)
Theorem noise_blend_is_bilinear_in_unit_interval :
  forall (a b c d ux uy fx fy : R) (p : vec2),
    0 <= ux <= 1 -> 0 <= uy <= 1 ->
    0 <= a <= 1 -> 0 <= b <= 1 -> 0 <= c <= 1 -> 0 <= d <= 1 ->
    0 <= fx < 1 -> 0 <= fy < 1 ->
    noise_blend a b c d (mkVec2 ux uy)
      = mix (mix a b ux) (mix c d ux) uy
    /\ 0 <= noise_blend a b c d (mkVec2 (hermite fx) (hermite fy)) <= 1
    /\ noise p
       = noise_blend (rand (floor2 p))
                     (rand (add2 (floor2 p) (mkVec2 1 0)))
                     (rand (add2 (floor2 p) (mkVec2 0 1)))
                     (rand (add2 (floor2 p) (mkVec2 1 1)))
                     (mkVec2 (hermite (fract (vx p))) (hermite (fract (vy p))))
    /\ 0 <= noise p <= 1.
Proof.
  intros a b c d ux uy fx fy p Hux Huy Ha Hb Hc Hd Hfx Hfy.
  split; [| split; [| split]].
  - rewrite noise_blend_bilinear. reflexivity.
  - apply noise_blend_range; try assumption; cbn [vx vy];
      apply hermite_range; lra.
  - reflexivity.
  - apply noise_range.
Qed.

Lemma noise_blend_is_bilinear_in_unit_interval_witness :
  noise_blend 0 1 1 0 (mkVec2 (1 / 2) 1)
    = mix (mix 0 1 (1 / 2)) (mix 1 0 (1 / 2)) 1
  /\ 0 <= noise_blend 0 1 1 0 (mkVec2 (hermite (1 / 2)) (hermite 0)) <= 1.
Proof.
  destruct (noise_blend_is_bilinear_in_unit_interval
              0 1 1 0 (1 / 2) 1 (1 / 2) 0 (mkVec2 0 0)
              ltac:(lra) ltac:(lra) ltac:(lra) ltac:(lra)
              ltac:(lra) ltac:(lra) ltac:(lra) ltac:(lra))
    as [H1 [H2 _]].
  split; [exact H1 | exact H2].
Defined.

(** C5.  When the octave function returns values in [0,1], [fbm] is the
    sum of exactly five octaves, the coordinate doubled and the amplitude
    multiplied by 0.4 from one octave to the next, starting at amplitude
    0.4; it is non-negative and at most
    0.4 + 0.16 + 0.064 + 0.0256 + 0.01024 = 0.65984.  The shader's [fbm]
    is this loop over [noise]. *)
Theorem fbm_five_octaves_bounded :
  forall octave : vec2 -> R,
    (forall q, 0 <= octave q <= 1) ->
    forall p : vec2,
      let p1 := scale2 p 2 in
      let p2 := scale2 p1 2 in
      let p3 := scale2 p2 2 in
      let p4 := scale2 p3 2 in
      fbm_with octave p
        = 0.4 * octave p
          + 0.4 * 0.4 * octave p1
          + 0.4 * 0.4 * 0.4 * octave p2
          + 0.4 * 0.4 * 0.4 * 0.4 * octave p3
          + 0.4 * 0.4 * 0.4 * 0.4 * 0.4 * octave p4
      /\ 0.4 + 0.16 + 0.064 + 0.0256 + 0.01024 = 0.65984
      /\ 0 <= fbm_with octave p <= 0.65984
      /\ fbm p = fbm_with noise p.
Proof.
  intros octave Hoct p p1 p2 p3 p4.
  split; [| split; [| split]].
  - unfold fbm_with, OCTAVES. cbn [fbm_loop]. subst p1 p2 p3 p4. ring.
  - lra.
  - unfold fbm_with, OCTAVES.
    assert (0 <= 0.4) as Hamp by lra.
    destruct (fbm_loop_bounds octave Hoct 5 0 0.4 p Hamp) as [Hlo Hhi].
    split; [exact Hlo |].
    eapply Rle_trans; [exact Hhi |]. cbn [pow]. lra.
  - reflexivity.
Qed.

Lemma fbm_five_octaves_bounded_witness :
  0 <= fbm_with noise (mkVec2 0 0) <= 0.65984.
Proof.
  destruct (fbm_five_octaves_bounded noise noise_range (mkVec2 0 0))
    as [_ [_ [H _]]].
  exact H.
Defined.

(** C8.  The alpha the fragment shader writes is the height mask
    [smoothstep(0.5, 0.0, p.y)], and its colour is [baseSmoke] times that
    mask.  The mask is 1 at the bottom edge, never increases with the
    height, and is 0 from the vertical midpoint up, where the fragment is
    therefore fully transparent black. *)
Theorem fragment_alpha_is_height_mask :
  forall (uv : vec2) (time : R) (vp : vec2),
    let mask := smoothstep 0.5 0 (vy uv) in
    fa (main uv time vp) = mask
    /\ heightMask (main_locals uv time vp) = mask
    /\ rgb_of (main uv time vp)
       = scale3 (baseSmoke (main_locals uv time vp)) mask
    /\ smoothstep 0.5 0 0 = 1
    /\ (forall y1 y2, y1 <= y2 -> smoothstep 0.5 0 y2 <= smoothstep 0.5 0 y1)
    /\ (forall y0, 0.5 <= y0 -> smoothstep 0.5 0 y0 = 0)
    /\ (0.5 <= vy uv -> main uv time vp = mkVec4 0 0 0 0).
Proof.
  intros uv time vp mask.
  assert (forall y0, 0.5 <= y0 -> smoothstep 0.5 0 y0 = 0) as Hzero.
  { intros y0 Hy. rewrite smoothstep_half_zero.
    assert (clamp (1 - 2 * y0) 0 1 = 0) as ->.
    { unfold clamp, Rmin, Rmax.
      destruct (Rle_dec (1 - 2 * y0) 0); [| lra].
      destruct (Rle_dec 0 1); lra. }
    unfold hermite. ring. }
  repeat split.
  - rewrite smoothstep_half_zero.
    assert (clamp (1 - 2 * 0) 0 1 = 1) as ->.
    { unfold clamp, Rmin, Rmax.
      destruct (Rle_dec (1 - 2 * 0) 0); [lra |].
      destruct (Rle_dec (1 - 2 * 0) 1); lra. }
    unfold hermite. ring.
  - intros y1 y2 Hy. rewrite !smoothstep_half_zero.
    pose proof (clamp_range (1 - 2 * y1)) as [_ H1].
    pose proof (clamp_range (1 - 2 * y2)) as [H2 _].
    apply hermite_monotone; try assumption.
    apply clamp_monotone. lra.
  - exact Hzero.
  - intros Hy. unfold main, main_locals. cbv zeta. cbn [fragColor vx vy].
    rewrite (Hzero _ Hy). unfold vec4_of, scale3. cbn [cr cg cb].
    rewrite !Rmult_0_r. reflexivity.
Qed.

End SmokeClaims.

(* ================================================================== *)
(** * Properties of [WebGLHandler] *)
(* ================================================================== *)

Section HandlerFacts.
Import Handler.

(** Unfolds a run of the constructor down to the record it builds. *)
Ltac run_io :=
  cbv [boot exec constructor _compile _resize requestAnimationFrame render
       bind ret emit get set_attached set_cn_size set_startTime
       set_raf_queue set_resize_listeners set_window_size fresh_page
       negb snd fst app source_of
       log attached cn_width cn_height innerWidth innerHeight startTime
       raf_queue resize_listeners].

Lemma deliver_inert (ev : HostEvent) (w : World) :
  inert w ->
  log (exec (deliver ev) w) = log w /\ inert (exec (deliver ev) w).
Proof.
  intros [Hq Hl]. destruct w as [lg att cw ch iw ih st q ls].
  cbn [raf_queue resize_listeners] in Hq, Hl. subst q ls.
  destruct ev; unfold inert; cbv; auto.
Qed.

Lemma deliver_all_inert (evs : list HostEvent) :
  forall w, inert w ->
    log (exec (deliver_all evs) w) = log w
    /\ inert (exec (deliver_all evs) w).
Proof.
  induction evs as [|ev evs IH]; intros w Hw.
  - split; [reflexivity | exact Hw].
  - destruct (deliver_inert ev w Hw) as [Hlog Hin].
    destruct (IH _ Hin) as [Hlog' Hin'].
    assert (exec (deliver_all (ev :: evs)) w
            = exec (deliver_all evs) (exec (deliver ev) w)) as E.
    { unfold exec. cbn [deliver_all]. unfold bind.
      destruct (deliver ev w). reflexivity. }
    rewrite E. split; [congruence | exact Hin'].
Qed.

(** On a host where everything succeeds the constructor does reach the
    render loop: the first frame is drawn and the next one is queued. *)
Lemma successful_setup_draws (host : Host) (iw ih : N) (now : Z) :
  has_webgl2 host = true ->
  COMPILE_STATUS host VERTEX_SHADER vertexShaderSource = true ->
  COMPILE_STATUS host FRAGMENT_SHADER fragmentShaderSource = true ->
  LINK_STATUS host [VERTEX_SHADER; FRAGMENT_SHADER] = true ->
  In (drawArrays 0 6) (log (boot host iw ih now))
  /\ raf_queue (boot host iw ih now) = [cb_render].
Proof.
  intros Hgl Hv Hf Hl. run_io. rewrite Hgl, Hv, Hf, Hl.
  split; [| reflexivity]. cbn [In]. auto 20.
Qed.

(** The constructor does not stop at a failed compile: it goes on to link,
    and it is the link status that keeps it from the render loop.  On a
    host that reported a successful link of a program lacking a stage, it
    would draw. *)
Lemma lenient_link_would_draw (iw ih : N) (now : Z) :
  let host := mkHost true
                     (fun ty _ => match ty with
                                  | VERTEX_SHADER => true
                                  | FRAGMENT_SHADER => false
                                  end)
                     (fun _ _ => "ERROR: 0:1"%string)
                     (fun _ => true)
                     (fun _ => ""%string) in
  In (drawArrays 0 6) (log (boot host iw ih now)).
Proof.
  intros host. subst host. run_io.
  cbn [has_webgl2 COMPILE_STATUS shaderInfoLog LINK_STATUS programInfoLog].
  cbn [In]. auto 20.
Qed.


(** C4.  On a host that follows the link rule of OpenGL ES, when the
    vertex shader or the fragment shader does not compile, or the program
    does not link: the info log of every stage that failed to compile is
    written with [console.error] and that shader object is deleted and
    not attached; the link fails and its info log is written with
    [console.error]; the constructor returns with no frame callback queued
    and no resize listener registered; and whatever frames and resizes
    the page delivers afterwards, the handler makes no call at all, hence
    no [drawArrays]. *)
Theorem failed_setup_never_draws :
  forall (host : Host) (iw ih : N) (now : Z) (evs : list HostEvent),
    has_webgl2 host = true ->
    link_needs_both_stages host ->
    COMPILE_STATUS host VERTEX_SHADER vertexShaderSource = false
    \/ COMPILE_STATUS host FRAGMENT_SHADER fragmentShaderSource = false
    \/ LINK_STATUS host [VERTEX_SHADER; FRAGMENT_SHADER] = false ->
    let w0 := boot host iw ih now in
    let w := run host iw ih now evs in
    (forall ty, COMPILE_STATUS host ty (source_of ty) = false ->
       exists before after,
         log w0 = before
                  ++ [compileShader ty;
                      console_error [shaderInfoLog host ty (source_of ty)];
                      deleteShader ty]
                  ++ after
         /\ ~ In (attachShader ty) (log w0))
    /\ (exists before,
          log w0 = before
                   ++ [linkProgram;
                       console_error ["WebGL program failed to link:"%string;
                                      programInfoLog host (attached w0)]]
          /\ LINK_STATUS host (attached w0) = false)
    /\ inert w0
    /\ draw_calls (log w0) = []
    /\ log w = log w0
    /\ draw_calls (log w) = [].
Proof.
  intros host iw ih now evs Hgl Hrule Hfail w0 w.
  assert (forall att, ~ (In VERTEX_SHADER att /\ In FRAGMENT_SHADER att) ->
                      LINK_STATUS host att = false) as Hno.
  { intros att Hatt. destruct (LINK_STATUS host att) eqn:E; [| reflexivity].
    exfalso. apply Hatt, Hrule, E. }
  assert (LINK_STATUS host [] = false) as L0.
  { apply Hno. cbn [In]. tauto. }
  assert (LINK_STATUS host [VERTEX_SHADER] = false) as L1.
  { apply Hno. cbn [In]. intros [_ [H | []]]. discriminate H. }
  assert (LINK_STATUS host [FRAGMENT_SHADER] = false) as L2.
  { apply Hno. cbn [In]. intros [[H | []] _]. discriminate H. }
  assert (inert w0 -> draw_calls (log w0) = [] ->
          log w = log w0 /\ draw_calls (log w) = []) as Hlater.
  { intros Hin Hd.
    destruct (deliver_all_inert evs w0 Hin) as [Hlog _].
    change (log w) with (log (exec (deliver_all evs) w0)).
    rewrite Hlog. split; [reflexivity | exact Hd]. }
  destruct (COMPILE_STATUS host VERTEX_SHADER vertexShaderSource) eqn:Hv;
    destruct (COMPILE_STATUS host FRAGMENT_SHADER fragmentShaderSource) eqn:Hf.
  - (* both stages compile: the link fails *)
    assert (LINK_STATUS host [VERTEX_SHADER; FRAGMENT_SHADER] = false) as L3.
    { destruct Hfail as [H | [H | H]]; [discriminate H | discriminate H | exact H]. }
    assert (w0 = boot host iw ih now) as Ew by reflexivity.
    revert Ew. run_io. rewrite Hgl, Hv, Hf, L3. intros Ew.
    split; [| split; [| split; [| split]]].
    + intros [] Hty; cbn [source_of] in Hty; congruence.
    + rewrite Ew. cbn [log attached].
      eexists (_ :: _ :: _ :: _ :: _ :: _ :: _ :: _ :: _ :: []).
      split; [reflexivity | exact L3].
    + rewrite Ew. split; reflexivity.
    + rewrite Ew. reflexivity.
    + apply Hlater; rewrite Ew; [split |]; reflexivity.
  - (* the fragment shader does not compile *)
    assert (w0 = boot host iw ih now) as Ew by reflexivity.
    revert Ew. run_io. rewrite Hgl, Hv, Hf, L1. intros Ew.
    split; [| split; [| split; [| split]]].
    + intros [] Hty; cbn [source_of] in Hty; [congruence |].
      rewrite Ew. cbn [log].
      exists [createProgram; createShader VERTEX_SHADER;
              shaderSource VERTEX_SHADER vertexShaderSource;
              compileShader VERTEX_SHADER; attachShader VERTEX_SHADER;
              createShader FRAGMENT_SHADER;
              shaderSource FRAGMENT_SHADER fragmentShaderSource].
      eexists. split; [reflexivity |].
      cbn [In]. intuition discriminate.
    + rewrite Ew. cbn [log attached].
      eexists (_ :: _ :: _ :: _ :: _ :: _ :: _ :: _ :: _ :: _ :: []).
      split; [reflexivity | exact L1].
    + rewrite Ew. split; reflexivity.
    + rewrite Ew. reflexivity.
    + apply Hlater; rewrite Ew; [split |]; reflexivity.
  - (* the vertex shader does not compile *)
    assert (w0 = boot host iw ih now) as Ew by reflexivity.
    revert Ew. run_io. rewrite Hgl, Hv, Hf, L2. intros Ew.
    split; [| split; [| split; [| split]]].
    + intros [] Hty; cbn [source_of] in Hty; [| congruence].
      rewrite Ew. cbn [log].
      exists [createProgram; createShader VERTEX_SHADER;
              shaderSource VERTEX_SHADER vertexShaderSource].
      eexists. split; [reflexivity |].
      cbn [In]. intuition discriminate.
    + rewrite Ew. cbn [log attached].
      eexists (_ :: _ :: _ :: _ :: _ :: _ :: _ :: _ :: _ :: _ :: []).
      split; [reflexivity | exact L2].
    + rewrite Ew. split; reflexivity.
    + rewrite Ew. reflexivity.
    + apply Hlater; rewrite Ew; [split |]; reflexivity.
  - (* neither stage compiles *)
    assert (w0 = boot host iw ih now) as Ew by reflexivity.
    revert Ew. run_io. rewrite Hgl, Hv, Hf, L0. intros Ew.
    split; [| split; [| split; [| split]]].
    + intros [] Hty; cbn [source_of] in Hty; rewrite Ew; cbn [log].
      * exists [createProgram; createShader VERTEX_SHADER;
                shaderSource VERTEX_SHADER vertexShaderSource].
        eexists. split; [reflexivity |].
        cbn [In]. intuition discriminate.
      * exists [createProgram; createShader VERTEX_SHADER;
                shaderSource VERTEX_SHADER vertexShaderSource;
                compileShader VERTEX_SHADER;
                console_error
                  [shaderInfoLog host VERTEX_SHADER vertexShaderSource];
                deleteShader VERTEX_SHADER;
                createShader FRAGMENT_SHADER;
                shaderSource FRAGMENT_SHADER fragmentShaderSource].
        eexists. split; [reflexivity |].
        cbn [In]. intuition discriminate.
    + rewrite Ew. cbn [log attached].
      eexists (_ :: _ :: _ :: _ :: _ :: _ :: _ :: _ :: _ :: _ :: _ :: []).
      split; [reflexivity | exact L0].
    + rewrite Ew. split; reflexivity.
    + rewrite Ew. reflexivity.
    + apply Hlater; rewrite Ew; [split |]; reflexivity.
Qed.

Lemma links_when_complete_rule (host : Host) :
  LINK_STATUS host = links_when_complete -> link_needs_both_stages host.
Proof.
  intros E att. rewrite E. unfold links_when_complete.
  intros H. apply andb_prop in H. destruct H as [Hv Hf].
  apply existsb_exists in Hv. destruct Hv as [a [Ha Ea]].
  apply existsb_exists in Hf. destruct Hf as [b [Hb Eb]].
  destruct a; [| discriminate Ea]. destruct b; [discriminate Eb |].
  split; assumption.
Qed.

Lemma failed_setup_never_draws_witness :
  inert (boot host_rejecting_fragment 1920 1080 0)
  /\ draw_calls
       (log (run host_rejecting_fragment 1920 1080 0
                 [AnimationFrame 16; WindowResize 800 600; AnimationFrame 33]))
     = [].
Proof.
  destruct (failed_setup_never_draws
              host_rejecting_fragment 1920 1080 0
              [AnimationFrame 16; WindowResize 800 600; AnimationFrame 33]
              eq_refl
              (links_when_complete_rule host_rejecting_fragment eq_refl)
              (or_intror (or_introl eq_refl)))
    as [_ [_ [Hin [_ [_ Hd]]]]].
  split; [exact Hin | exact Hd].
Defined.

End HandlerFacts.


(* ================================================================== *)
(** * Properties of the ember particle system *)
(* ================================================================== *)

Section EmberFacts.
Import Ember.

Variable random_values : nat -> R.

(** Unfolds the monadic plumbing of the particle code. *)
Ltac run_rand :=
  unfold Ember.update, Ember.respawn, Ember.roll_loopRadius, Ember.bind,
         Ember.ret, Ember.Math_random.

Lemma widthR_nonneg (cv : Canvas) : 0 <= widthR cv.
Proof. unfold widthR. apply IZR_le. lia. Qed.

Lemma heightR_nonneg (cv : Canvas) : 0 <= heightR cv.
Proof. unfold heightR. apply IZR_le. lia. Qed.

Lemma flicker_range (p : Particle) (t : R) : 0.1 <= flicker p t <= 0.5.
Proof.
  unfold flicker.
  pose proof (SIN_bound (t * 0.02 + flickerPhase p)) as [Hlo Hhi].
  split; lra.
Qed.

(** The re-roll gives 0 or a value in [8, 28), on one or two draws. *)
Lemma roll_loopRadius_spec (k : nat) :
  random_in_range random_values ->
  (fst (roll_loopRadius random_values k) = 0 /\ snd (roll_loopRadius random_values k) = S k
   /\ ~ random_values k < 0.4)
  \/ (fst (roll_loopRadius random_values k) = random_values (S k) * 20 + 8
      /\ 8 <= fst (roll_loopRadius random_values k) < 28
      /\ snd (roll_loopRadius random_values k) = S (S k)
      /\ random_values k < 0.4).
Proof.
  intros Hr. run_rand.
  destruct (Rlt_dec (random_values k) 0.4) as [Hlt | Hge]; cbn [fst snd].
  - right. pose proof (Hr (S k)) as [H0 H1]. repeat split; lra.
  - left. repeat split; assumption.
Qed.

(** The fields [drawEmber] leaves alone. *)
Lemma drawEmber_fields (p : Particle) (t : R) :
  let q := fst (drawEmber p t) in
  size q = baseSize p * flicker p t
  /\ baseX q = baseX p /\ x q = x p /\ y q = y p
  /\ baseSize q = baseSize p /\ speed q = speed p /\ drift q = drift p
  /\ flickerPhase q = flickerPhase p /\ loopRadius q = loopRadius p
  /\ angle q = angle p /\ angularSpeed q = angularSpeed p.
Proof. cbn. repeat split. Qed.

(** The position advance. *)
Lemma advance_fields (p : Particle) :
  let q := advance p in
  y q = y p - speed p
  /\ baseSize q = baseSize p /\ size q = size p /\ speed q = speed p
  /\ drift q = drift p /\ flickerPhase q = flickerPhase p
  /\ loopRadius q = loopRadius p /\ angularSpeed q = angularSpeed p
  /\ (0 < loopRadius p ->
        angle q = angle p + angularSpeed p
        /\ baseX q = baseX p + drift p
        /\ x q = (baseX p + drift p)
                 + sin (angle p + angularSpeed p) * loopRadius p)
  /\ (~ 0 < loopRadius p ->
        angle q = angle p /\ baseX q = baseX p /\ x q = x p + drift p).
Proof.
  unfold advance. cbv zeta. cbn [loopRadius set_y].
  destruct (Rlt_dec 0 (loopRadius p)) as [Hl | Hl]; cbn;
    repeat split; intros; try reflexivity; contradiction.
Qed.

(** The horizontal wrap only ever assigns [x]. *)
Lemma wrap_is_set_x (cv : Canvas) (p : Particle) :
  wrap cv p = set_x p (x (wrap cv p)).
Proof.
  unfold wrap. cbv zeta.
  destruct (Rlt_dec (x p) (-10)); cbn [x set_x];
    destruct (Rgt_dec _ (widthR cv + 10)); cbn [x set_x];
    destruct p; reflexivity.
Qed.

Lemma wrap_cases (cv : Canvas) (p : Particle) :
  (x p < -10 -> x (wrap cv p) = widthR cv + 10)
  /\ (x p > widthR cv + 10 -> x (wrap cv p) = -10)
  /\ (-10 <= x p <= widthR cv + 10 -> wrap cv p = p).
Proof.
  pose proof (widthR_nonneg cv) as Hw.
  unfold wrap. cbv zeta.
  destruct (Rlt_dec (x p) (-10)) as [H1 | H1]; cbn [x set_x];
    destruct (Rgt_dec _ (widthR cv + 10)) as [H2 | H2]; cbn [x set_x];
    repeat split; intros; try reflexivity; try lra.
Qed.

Lemma wrap_range (cv : Canvas) (p : Particle) :
  -10 <= x (wrap cv p) <= widthR cv + 10.
Proof.
  pose proof (widthR_nonneg cv) as Hw.
  unfold wrap. cbv zeta.
  destruct (Rlt_dec (x p) (-10)) as [H1 | H1]; cbn [x set_x];
    destruct (Rgt_dec _ (widthR cv + 10)) as [H2 | H2]; cbn [x set_x];
    lra.
Qed.

(** The respawn statement when its test fails. *)
Lemma respawn_skips (cv : Canvas) (p : Particle) (k : nat) :
  ~ y p < - size p -> respawn random_values cv p k = (p, k).
Proof.
  intros H. unfold Ember.respawn.
  destruct (Rlt_dec (y p) (- size p)); [contradiction | reflexivity].
Qed.

(** The respawn statement when its test holds: what it assigns, and what
    it leaves alone. *)
Lemma respawn_fires (cv : Canvas) (p : Particle) (k : nat) :
  y p < - size p ->
  let r := fst (respawn random_values cv p k) in
  let k' := snd (respawn random_values cv p k) in
  y r = heightR cv + size p
  /\ baseX r = random_values k * widthR cv
  /\ angle r = random_values (S k) * PI * 2
  /\ loopRadius r = fst (roll_loopRadius random_values (S (S k)))
  /\ x r = baseX r + sin (angle r) * loopRadius r
  /\ k' = snd (roll_loopRadius random_values (S (S k)))
  /\ baseSize r = baseSize p /\ size r = size p /\ speed r = speed p
  /\ drift r = drift p /\ flickerPhase r = flickerPhase p
  /\ angularSpeed r = angularSpeed p.
Proof.
  intros H. run_rand.
  destruct (Rlt_dec (y p) (- size p)); [| contradiction].
  destruct (Rlt_dec (random_values (S (S k))) 0.4); cbn; repeat split.
Qed.

(** Every statement of the update leaves these six fields alone, whether
    or not the respawn fires. *)
Lemma respawn_keeps (cv : Canvas) (p : Particle) (k : nat) :
  let r := fst (respawn random_values cv p k) in
  baseSize r = baseSize p /\ size r = size p /\ speed r = speed p
  /\ drift r = drift p /\ flickerPhase r = flickerPhase p
  /\ angularSpeed r = angularSpeed p.
Proof.
  destruct (Rlt_dec (y p) (- size p)) as [H | H].
  - pose proof (respawn_fires cv p k H) as Hf. cbv zeta in Hf. cbv zeta.
    tauto.
  - rewrite (respawn_skips cv p k H). cbn. repeat split.
Qed.

Lemma wrap_keeps (cv : Canvas) (p : Particle) :
  baseX (wrap cv p) = baseX p /\ y (wrap cv p) = y p
  /\ baseSize (wrap cv p) = baseSize p /\ size (wrap cv p) = size p
  /\ speed (wrap cv p) = speed p /\ drift (wrap cv p) = drift p
  /\ flickerPhase (wrap cv p) = flickerPhase p
  /\ loopRadius (wrap cv p) = loopRadius p
  /\ angle (wrap cv p) = angle p
  /\ angularSpeed (wrap cv p) = angularSpeed p.
Proof. rewrite wrap_is_set_x. cbn. repeat split. Qed.

(** [update] is the four statements in sequence. *)
Lemma update_unfold (cv : Canvas) (t : R) (p : Particle) (k : nat) :
  update random_values cv t p k
  = (wrap cv (fst (respawn random_values cv (advance (fst (drawEmber p t))) k)),
     snd (drawEmber p t),
     snd (respawn random_values cv (advance (fst (drawEmber p t))) k)).
Proof.
  unfold Ember.update. cbn [drawEmber fst snd]. unfold Ember.bind, Ember.ret.
  destruct (respawn random_values cv _ k). reflexivity.
Qed.

(** ** The collection *)

(** [forEach] updates every particle where it stands: the result has one
    particle per input particle, in the same order, each the update of the
    one at its index. *)
Lemma forEach_pointwise (cv : Canvas) (t : R) (ps : list Particle) :
  forall k,
    Forall2 (fun p p' => exists k0, p' = fst (fst (update random_values cv t p k0)))
            ps (fst (fst (forEach random_values cv t ps k))).
Proof.
  induction ps as [|p ps IH]; intros k.
  - constructor.
  - cbn [forEach]. unfold Ember.bind at 1.
    destruct (update random_values cv t p k) as [pa k1] eqn:E1.
    unfold Ember.bind at 1. specialize (IH k1).
    destruct (forEach random_values cv t ps k1) as [ra k2].
    cbn [Ember.ret fst snd] in *. constructor; [| exact IH].
    exists k. rewrite E1. reflexivity.
Qed.

Lemma forEach_length (cv : Canvas) (t : R) (ps : list Particle) (k : nat) :
  List.length (fst (fst (forEach random_values cv t ps k))) = List.length ps.
Proof.
  symmetry. eapply Forall2_length. apply forEach_pointwise.
Qed.

Lemma forEach_invariant (P Q : Particle -> Prop) (cv : Canvas) (t : R) :
  (forall p k, P p -> Q (fst (fst (update random_values cv t p k)))) ->
  forall ps k,
    Forall P ps -> Forall Q (fst (fst (forEach random_values cv t ps k))).
Proof.
  intros Hstep ps k Hps.
  pose proof (forEach_pointwise cv t ps k) as H2.
  induction H2 as [|p p' ps ps' [k0 Hp] _ IH]; [constructor |].
  apply Forall_cons_iff in Hps. destruct Hps as [Hp0 Hps].
  constructor; [| apply IH; exact Hps].
  rewrite Hp. apply Hstep. exact Hp0.
Qed.

Lemma animate_invariant (P : Particle -> Prop) :
  (forall cv t p k, P p -> P (fst (fst (update random_values cv t p k)))) ->
  forall frames ps k,
    Forall P ps -> Forall P (fst (animate random_values frames ps k)).
Proof.
  intros Hstep. induction frames as [|[cv t] frames IH]; intros ps k Hps.
  - exact Hps.
  - cbn [animate]. unfold Ember.bind, animateParticles.
    pose proof (forEach_invariant P P cv t (Hstep cv t) ps k Hps) as H.
    destruct (forEach random_values cv t ps k) as [pa k1].
    apply IH. exact H.
Qed.

Lemma animate_app (frames1 frames2 : list (Canvas * R)) :
  forall ps k,
    animate random_values (frames1 ++ frames2) ps k
    = animate random_values frames2
              (fst (animate random_values frames1 ps k))
              (snd (animate random_values frames1 ps k)).
Proof.
  induction frames1 as [|[cv t] frames1 IH]; intros ps k.
  - reflexivity.
  - cbn [app animate]. unfold Ember.bind.
    destruct (animateParticles random_values cv t ps k) as [pa k1].
    apply IH.
Qed.

Lemma new_particles_invariant (P : Particle -> Prop) (cv : Canvas) :
  (forall k, P (fst (new_particle random_values cv k))) ->
  forall n k, Forall P (fst (new_particles random_values cv n k)).
Proof.
  intros Hnew. induction n as [|n IH]; intros k.
  - constructor.
  - cbn [new_particles]. unfold Ember.bind at 1.
    pose proof (Hnew k) as Hp.
    destruct (new_particle random_values cv k) as [p k1].
    unfold Ember.bind at 1. specialize (IH k1).
    destruct (new_particles random_values cv n k1) as [ps k2].
    cbn [Ember.ret fst] in *. constructor; assumption.
Qed.

Lemma new_particle_baseSize (cv : Canvas) (k : nat) :
  random_in_range random_values ->
  2 <= baseSize (fst (new_particle random_values cv k)) < 5.
Proof.
  intros Hr. unfold new_particle. run_rand.
  destruct (Rlt_dec (random_values _) 0.4); cbn;
    pose proof (Hr k) as [H0 H1]; lra.
Qed.

Lemma update_keeps (cv : Canvas) (t : R) (p : Particle) (k : nat) :
  let r := fst (fst (update random_values cv t p k)) in
  baseSize r = baseSize p /\ flickerPhase r = flickerPhase p
  /\ speed r = speed p /\ drift r = drift p
  /\ angularSpeed r = angularSpeed p
  /\ size r = baseSize p * flicker p t.
Proof.
  cbv zeta. rewrite update_unfold. cbn [fst].
  pose proof (wrap_keeps cv
                (fst (respawn random_values cv (advance (fst (drawEmber p t))) k)))
    as Hw.
  pose proof (respawn_keeps cv (advance (fst (drawEmber p t))) k) as Hr.
  pose proof (advance_fields (fst (drawEmber p t))) as Ha.
  pose proof (drawEmber_fields p t) as Hd.
  cbv zeta in Hr, Ha, Hd.
  repeat split; intuition congruence.
Qed.

(** Every particle the page ever holds has a base radius of 2 to 5
    pixels, as drawn at start-up. *)
Lemma collection_baseSize (cv0 : Canvas) (frames : list (Canvas * R)) :
  random_in_range random_values ->
  Forall (fun p => 2 <= baseSize p < 5)
         (particles_after random_values cv0 frames).
Proof.
  intros Hr. unfold particles_after, Ember.bind, init.
  pose proof (new_particles_invariant (fun p => 2 <= baseSize p < 5) cv0
                (fun k => new_particle_baseSize cv0 k Hr) EMBER_COUNT O) as H.
  destruct (new_particles random_values cv0 EMBER_COUNT O) as [ps k1].
  apply animate_invariant; [| exact H].
  intros cv t p k Hp.
  pose proof (update_keeps cv t p k) as [E _]. cbv zeta in E.
  rewrite E. exact Hp.
Qed.

(** The collection always holds [EMBER_COUNT] particles. *)
Lemma collection_length (cv0 : Canvas) (frames : list (Canvas * R)) :
  List.length (particles_after random_values cv0 frames) = EMBER_COUNT.
Proof.
  unfold particles_after, Ember.bind, init.
  assert (forall n k, List.length (fst (new_particles random_values cv0 n k)) = n)
    as Hn.
  { induction n as [|n IH]; intros k; [reflexivity |].
    cbn [new_particles]. unfold Ember.bind at 1.
    destruct (new_particle random_values cv0 k) as [p k1].
    unfold Ember.bind at 1. specialize (IH k1).
    destruct (new_particles random_values cv0 n k1) as [ps k2].
    cbn [Ember.ret fst List.length] in *. congruence. }
  specialize (Hn EMBER_COUNT O).
  destruct (new_particles random_values cv0 EMBER_COUNT O) as [ps k1].
  cbn [fst] in Hn. rewrite <- Hn. clear Hn. revert ps k1.
  induction frames as [|[cv t] frames IH]; intros ps k; [reflexivity |].
  cbn [animate]. unfold Ember.bind, animateParticles.
  pose proof (forEach_length cv t ps k) as Hl.
  destruct (forEach random_values cv t ps k) as [pa k1].
  rewrite IH. exact Hl.
Qed.

End EmberFacts.

Section EmberClaims.
Import Ember.

Lemma widthR_800 : widthR canvas_800x600 = 800.
Proof. reflexivity. Qed.

Lemma heightR_600 : heightR canvas_800x600 = 600.
Proof. reflexivity. Qed.

Lemma flicker_at_clock_0 (p : Particle) :
  flickerPhase p = 0 -> flicker p 0 = 0.3.
Proof.
  intros H. unfold flicker. rewrite H.
  replace (0 * 0.02 + 0) with 0 by lra. rewrite sin_0. lra.
Qed.

Lemma ember_at_radius (y0 : R) :
  baseSize (ember_at y0) * flicker (ember_at y0) 0 = 3.
Proof. rewrite flicker_at_clock_0 by reflexivity. cbn. lra. Qed.

(** C1.  In the per-frame update of any particle the respawn branch runs
    exactly when, after the position advance, [y < -size], [size] being
    the radius [drawEmber] has just set from the flicker.  When it runs,
    [y] becomes the canvas height plus [size] (at least the canvas height
    for a non-negative base radius, as every particle of the collection
    has), [baseX] becomes a fresh draw times the width, hence in
    [0, width), [angle] a fresh draw times 2 pi, hence in [0, 2 pi),
    [loopRadius] is 0 or in [8, 28), and [x] is [baseX + sin(angle) *
    loopRadius].  A particle of speed 1, radius 3 and no loop at y = 5 is
    at y = 4 after one update; at y = -3.0001 the update respawns it to
    the canvas height plus 3. *)
Theorem respawn_exactly_above_top :
  forall random_values : nat -> R,
    random_in_range random_values ->
    forall (cv : Canvas) (t : R) (p : Particle) (k : nat),
      let q := advance (fst (drawEmber p t)) in
      let r := fst (respawn random_values cv q k) in
      let k' := snd (respawn random_values cv q k) in
      let p' := fst (fst (update random_values cv t p k)) in
      (y q = y p - speed p /\ size q = baseSize p * flicker p t)
      /\ (k' <> k <-> y q < - size q)
      /\ (~ y q < - size q -> r = q /\ y p' = y p - speed p)
      /\ (y q < - size q ->
            y r = heightR cv + size q
            /\ y p' = heightR cv + size q
            /\ (0 <= baseSize p -> heightR cv <= y r)
            /\ baseX r = random_values k * widthR cv
            /\ 0 <= baseX r
            /\ (0 < widthR cv -> baseX r < widthR cv)
            /\ angle r = random_values (S k) * PI * 2
            /\ 0 <= angle r < 2 * PI
            /\ (loopRadius r = 0 \/ 8 <= loopRadius r < 28)
            /\ x r = baseX r + sin (angle r) * loopRadius r
            /\ p' = wrap cv r)
      /\ (forall cv0 frames,
            Forall (fun e => 2 <= baseSize e < 5)
                   (particles_after random_values cv0 frames))
      /\ (speed p = 1 -> y p = 5 -> baseSize p * flicker p t = 3 ->
          loopRadius p = 0 -> y p' = 4)
      /\ (speed p = 1 -> y p = -3.0001 -> baseSize p * flicker p t = 3 ->
          loopRadius p = 0 -> y p' = heightR cv + 3).
Proof.
  intros rv Hr cv t p k q r k' p'.
  pose proof (drawEmber_fields p t) as Hd. cbv zeta in Hd.
  pose proof (advance_fields (fst (drawEmber p t))) as Ha. cbv zeta in Ha.
  fold q in Ha.
  assert (y q = y p - speed p) as Hy by (intuition congruence).
  assert (size q = baseSize p * flicker p t) as Hs by (intuition congruence).
  assert (p' = wrap cv r) as Hp'.
  { unfold p'. rewrite update_unfold. reflexivity. }
  assert (y p' = y r) as Hyp'.
  { rewrite Hp'. pose proof (wrap_keeps cv r). tauto. }
  assert (~ y q < - size q -> r = q /\ y p' = y p - speed p) as Hskip.
  { intros Hn. assert (r = q) as E.
    { unfold r. rewrite (respawn_skips rv cv q k Hn). reflexivity. }
    split; [exact E | congruence]. }
  assert (y q < - size q ->
          y r = heightR cv + size q /\ k' <> k) as Hfire.
  { intros Hf. pose proof (respawn_fires rv cv q k Hf) as H.
    cbv zeta in H. fold r k' in H.
    split; [tauto |].
    destruct H as [_ [_ [_ [_ [_ [Hk _]]]]]].
    destruct (roll_loopRadius_spec rv (S (S k)) Hr) as [[_ [E _]] | [_ [_ [E _]]]];
      rewrite E in Hk; lia. }
  split; [split; assumption |].
  split; [| split; [exact Hskip | split; [| split; [| split]]]].
  - split.
    + intros Hk. destruct (Rlt_dec (y q) (- size q)) as [H | H]; [exact H |].
      exfalso. apply Hk. unfold k'.
      rewrite (respawn_skips rv cv q k H). reflexivity.
    + intros Hf. apply Hfire. exact Hf.
  - intros Hf. pose proof (respawn_fires rv cv q k Hf) as H.
    cbv zeta in H. fold r k' in H.
    destruct H as [H1 [H2 [H3 [H4 [H5 _]]]]].
    pose proof (Hr k) as [Hk0 Hk1]. pose proof (Hr (S k)) as [Hs0 Hs1].
    pose proof (widthR_nonneg cv) as Hw. pose proof PI_RGT_0 as Hpi.
    split; [exact H1 |]. split; [congruence |].
    split.
    { intros Hb. rewrite H1, Hs.
      pose proof (flicker_range p t) as [Hf0 _].
      assert (0 <= baseSize p * flicker p t) by (apply Rmult_le_pos; lra).
      lra. }
    split; [exact H2 |].
    split; [rewrite H2; apply Rmult_le_pos; lra |].
    split.
    { intros Hpos. rewrite H2.
      assert (0 < (1 - rv k) * widthR cv) by (apply Rmult_lt_0_compat; lra).
      lra. }
    split; [exact H3 |].
    split.
    { rewrite H3.
      assert (0 <= rv (S k) * PI) by (apply Rmult_le_pos; lra).
      assert (0 < (1 - rv (S k)) * PI) by (apply Rmult_lt_0_compat; lra).
      split; lra. }
    split.
    { rewrite H4.
      destruct (roll_loopRadius_spec rv (S (S k)) Hr)
        as [[E _] | [_ [E _]]]; [left | right]; assumption. }
    split; [exact H5 | exact Hp'].
  - intros cv0 frames. apply collection_baseSize. exact Hr.
  - intros Hsp Hy5 Hsz Hl.
    assert (~ y q < - size q) as Hn by lra.
    destruct (Hskip Hn) as [_ E]. lra.
  - intros Hsp Hy3 Hsz Hl.
    assert (y q < - size q) as Hf by lra.
    destruct (Hfire Hf) as [E _]. lra.
Qed.

Lemma respawn_exactly_above_top_witness :
  y (fst (fst (update always_zero canvas_800x600 0 (ember_at 5) O))) = 4
  /\ y (fst (fst (update always_zero canvas_800x600 0 (ember_at (-3.0001)) O)))
     = heightR canvas_800x600 + 3.
Proof.
  assert (random_in_range always_zero) as Hr.
  { intros k. unfold always_zero. lra. }
  split.
  - pose proof (respawn_exactly_above_top
                  always_zero Hr canvas_800x600 0 (ember_at 5) O) as H.
    cbv zeta in H.
    destruct H as [_ [_ [_ [_ [_ [H _]]]]]].
    exact (H eq_refl eq_refl (ember_at_radius 5) eq_refl).
  - pose proof (respawn_exactly_above_top
                  always_zero Hr canvas_800x600 0 (ember_at (-3.0001)) O) as H.
    cbv zeta in H.
    destruct H as [_ [_ [_ [_ [_ [_ H]]]]]].
    exact (H eq_refl eq_refl (ember_at_radius (-3.0001)) eq_refl).
Defined.

End EmberClaims.

Section EmberClaims2.
Import Ember.

(** C3.  After one update of any particle, respawned or not, [x] lies in
    [-10, width + 10].  The wrap changes the particle exactly when [x]
    is below -10 or above width + 10 after the move; it then sets [x] to
    width + 10, respectively -10, and it assigns no other field. *)
Theorem x_within_margin_after_update :
  forall (random_values : nat -> R) (cv : Canvas) (t : R)
         (p q : Particle) (k : nat),
    let p' := fst (fst (update random_values cv t p k)) in
    -10 <= x p' <= widthR cv + 10
    /\ p' = wrap cv (fst (respawn random_values cv
                                  (advance (fst (drawEmber p t))) k))
    /\ (wrap cv q <> q <-> x q < -10 \/ x q > widthR cv + 10)
    /\ (x q < -10 -> x (wrap cv q) = widthR cv + 10)
    /\ (x q > widthR cv + 10 -> x (wrap cv q) = -10)
    /\ wrap cv q = set_x q (x (wrap cv q))
    /\ (baseX (wrap cv q) = baseX q /\ y (wrap cv q) = y q
        /\ baseSize (wrap cv q) = baseSize q /\ size (wrap cv q) = size q
        /\ speed (wrap cv q) = speed q /\ drift (wrap cv q) = drift q
        /\ flickerPhase (wrap cv q) = flickerPhase q
        /\ loopRadius (wrap cv q) = loopRadius q
        /\ angle (wrap cv q) = angle q
        /\ angularSpeed (wrap cv q) = angularSpeed q).
Proof.
  intros rv cv t p q k p'.
  assert (p' = wrap cv (fst (respawn rv cv (advance (fst (drawEmber p t))) k)))
    as Hp'.
  { unfold p'. rewrite update_unfold. reflexivity. }
  pose proof (wrap_cases cv q) as [Hlo [Hhi Hin]].
  pose proof (widthR_nonneg cv) as Hw.
  split; [rewrite Hp'; apply wrap_range |].
  split; [exact Hp' |].
  split; [| split; [exact Hlo | split; [exact Hhi | split]]].
  - split.
    + intros Hne.
      destruct (Rlt_dec (x q) (-10)) as [H1 | H1]; [left; exact H1 |].
      destruct (Rgt_dec (x q) (widthR cv + 10)) as [H2 | H2];
        [right; exact H2 |].
      exfalso. apply Hne. apply Hin. lra.
    + intros [H | H] E.
      * apply Hlo in H as Hx. rewrite E in Hx. lra.
      * apply Hhi in H as Hx. rewrite E in Hx. lra.
  - apply wrap_is_set_x.
  - apply wrap_keeps.
Qed.

End EmberClaims2.

Section EmberFlicker.
Import Floats.
Import Ember.
#[local] Set Warnings "-inexact-float".

(** The least value of the flicker in binary64,
    [7205759403792792 * 2^(-56)], which JavaScript prints as
    0.09999999999999998. *)
Lemma flicker_floor_below_one_tenth :
  7205759403792792 / 72057594037927936 < 0.1
  /\ 72057594037927936 = 2 ^ 56.
Proof. split; [lra | cbn [pow]; lra]. Qed.




End EmberFlicker.

Section EmberClaims2b.
Import Ember.

(** C10.  The wrap assigns only [x]: [baseX] and every other field stay
    as they were.  So for a particle with a positive loop radius the next
    update computes [x] anew as [baseX + sin(angle) * loopRadius] from the
    drifted, un-wrapped [baseX], and the particle it leaves is the one it
    would have left had the wrap not happened. *)
Theorem wrap_forgotten_by_looping_particle :
  forall (random_values : nat -> R) (cv cv' : Canvas) (t : R)
         (p : Particle) (k : nat),
    0 < loopRadius p ->
    let w := wrap cv p in
    let q := advance (fst (drawEmber w t)) in
    w = set_x p (x w)
    /\ baseX w = baseX p
    /\ loopRadius w = loopRadius p
    /\ x q = (baseX p + drift p)
             + sin (angle p + angularSpeed p) * loopRadius p
    /\ baseX q = baseX p + drift p
    /\ q = advance (fst (drawEmber p t))
    /\ fst (fst (update random_values cv' t w k))
       = fst (fst (update random_values cv' t p k))
    /\ snd (update random_values cv' t w k)
       = snd (update random_values cv' t p k).
Proof.
  intros rv cv cv' t p k Hl w q.
  assert (w = set_x p (x w)) as Ew by apply wrap_is_set_x.
  assert (forall v, advance (fst (drawEmber (set_x p v) t))
                    = advance (fst (drawEmber p t))) as Hforget.
  { intros v. unfold advance. cbv zeta.
    cbn [drawEmber fst set_size set_y set_x set_angle set_baseX
         loopRadius baseX x y baseSize size speed drift flickerPhase
         angle angularSpeed].
    destruct (Rlt_dec 0 (loopRadius p)); [| contradiction].
    unfold flicker. reflexivity. }
  assert (q = advance (fst (drawEmber p t))) as Eq.
  { unfold q. rewrite Ew. apply Hforget. }
  pose proof (advance_fields (fst (drawEmber p t))) as Ha. cbv zeta in Ha.
  rewrite <- Eq in Ha. cbn [drawEmber fst] in Ha.
  destruct Ha as [_ [_ [_ [_ [_ [_ [_ [_ [Hloop _]]]]]]]]].
  destruct (Hloop Hl) as [_ [Hb Hx]].
  cbn in Hb, Hx.
  pose proof (wrap_keeps cv p) as Hk. fold w in Hk.
  split; [exact Ew |].
  split; [tauto |].
  split; [tauto |].
  split; [exact Hx |].
  split; [exact Hb |].
  split; [exact Eq |].
  rewrite !update_unfold. cbn [fst snd]. fold q. rewrite Eq.
  split; reflexivity.
Qed.

Lemma wrap_forgotten_by_looping_particle_witness :
  x (wrap canvas_800x600 looping_ember) = widthR canvas_800x600 + 10
  /\ fst (fst (update always_zero canvas_800x600 0
                      (wrap canvas_800x600 looping_ember) O))
     = fst (fst (update always_zero canvas_800x600 0 looping_ember O)).
Proof.
  assert (0 < loopRadius looping_ember) as Hl by (cbn; lra).
  destruct (wrap_forgotten_by_looping_particle
              always_zero canvas_800x600 canvas_800x600 0 looping_ember O Hl)
    as [_ [_ [_ [_ [_ [_ [H _]]]]]]].
  split; [| exact H].
  apply wrap_cases. cbn. lra.
Defined.

End EmberClaims2b.

Section EmberClaims3.
Import Ember.

(** C2, as the specification states it, fails: on an 800 x 600 canvas at
    clock 0, with [Math.random()] returning 0, the ember at y = -10 is
    respawned by the update (it ends at y = 603, four draws being made),
    and its rise speed, horizontal drift, base radius, flicker phase and
    angular speed are what they were before. *)
Lemma respawn_keeps_attributes_counterexample :
  y (fst (fst (update always_zero canvas_800x600 0 (ember_at (-10)) O))) = 603
  /\ snd (update always_zero canvas_800x600 0 (ember_at (-10)) O) = 4%nat
  /\ speed (fst (fst (update always_zero canvas_800x600 0 (ember_at (-10)) O)))
     = 1
  /\ speed (ember_at (-10)) = 1
  /\ drift (fst (fst (update always_zero canvas_800x600 0 (ember_at (-10)) O)))
     = drift (ember_at (-10))
  /\ baseSize (fst (fst (update always_zero canvas_800x600 0 (ember_at (-10)) O)))
     = baseSize (ember_at (-10))
  /\ flickerPhase
       (fst (fst (update always_zero canvas_800x600 0 (ember_at (-10)) O)))
     = flickerPhase (ember_at (-10))
  /\ angularSpeed
       (fst (fst (update always_zero canvas_800x600 0 (ember_at (-10)) O)))
     = angularSpeed (ember_at (-10)).
Proof.
  pose proof (update_keeps always_zero canvas_800x600 0 (ember_at (-10)) O)
    as Hk. cbv zeta in Hk.
  destruct Hk as [Hb [Hp [Hs [Hd [Ha _]]]]].
  pose proof (ember_at_radius (-10)) as Hrad.
  assert (y (advance (fst (drawEmber (ember_at (-10)) 0)))
          < - size (advance (fst (drawEmber (ember_at (-10)) 0)))) as Hf.
  { pose proof (advance_fields (fst (drawEmber (ember_at (-10)) 0))) as H.
    cbv zeta in H. destruct H as [Hy [_ [Hsz _]]].
    rewrite Hy, Hsz. cbn [drawEmber fst size set_size y speed]. rewrite Hrad.
    cbn. lra. }
  pose proof (respawn_fires always_zero canvas_800x600 _ O Hf) as H.
  cbv zeta in H. destruct H as [Hy [_ [_ [_ [_ [Hk [_ [Hsz _]]]]]]]].
  split; [| split; [| split; [rewrite Hs; reflexivity |
                              repeat split; assumption]]];
    rewrite update_unfold; cbn [fst snd].
  - pose proof (wrap_keeps canvas_800x600
                  (fst (respawn always_zero canvas_800x600
                          (advance (fst (drawEmber (ember_at (-10)) 0))) O)))
      as [_ [E _]].
    rewrite E, Hy.
    pose proof (advance_fields (fst (drawEmber (ember_at (-10)) 0))) as H.
    cbv zeta in H. destruct H as [_ [_ [Hsz' _]]].
    rewrite Hsz'. cbn [drawEmber fst size set_size]. rewrite Hrad.
    rewrite heightR_600. lra.
  - rewrite Hk. unfold roll_loopRadius, Ember.bind, Ember.Math_random,
      Ember.ret, always_zero.
    destruct (Rlt_dec 0 0.4); [reflexivity | lra].
Qed.

(** C2, amended.  When the respawn fires, the particle is updated where
    it stands: [y], [baseX], [angle], [loopRadius] and [x] are reassigned
    ([y] to the canvas height plus the radius, [baseX], [angle] and
    [loopRadius] from fresh draws, [x] computed from these), and the base
    radius, the radius, the rise speed, the horizontal drift, the flicker
    phase and the angular speed keep the values they had.  A frame leaves
    one particle per particle of the collection, in the same order, each
    the update of the one at its place. *)
Theorem respawn_reassigns_five_fields :
  forall (random_values : nat -> R) (cv : Canvas) (t : R)
         (p : Particle) (ps : list Particle) (k : nat),
    let q := advance (fst (drawEmber p t)) in
    let r := fst (respawn random_values cv q k) in
    let p' := fst (fst (update random_values cv t p k)) in
    y q < - size q ->
    (y r = heightR cv + size q
     /\ baseX r = random_values k * widthR cv
     /\ angle r = random_values (S k) * PI * 2
     /\ loopRadius r = fst (roll_loopRadius random_values (S (S k)))
     /\ x r = baseX r + sin (angle r) * loopRadius r)
    /\ (baseSize r = baseSize q /\ size r = size q /\ speed r = speed q
        /\ drift r = drift q /\ flickerPhase r = flickerPhase q
        /\ angularSpeed r = angularSpeed q)
    /\ (baseSize p' = baseSize p /\ speed p' = speed p
        /\ drift p' = drift p /\ flickerPhase p' = flickerPhase p
        /\ angularSpeed p' = angularSpeed p
        /\ size p' = baseSize p * flicker p t)
    /\ List.length (fst (fst (animateParticles random_values cv t ps k)))
       = List.length ps
    /\ Forall2 (fun e e' =>
                  exists k0, e' = fst (fst (update random_values cv t e k0)))
               ps (fst (fst (animateParticles random_values cv t ps k))).
Proof.
  intros rv cv t p ps k q r p' Hf.
  pose proof (respawn_fires rv cv q k Hf) as H. cbv zeta in H. fold r in H.
  pose proof (update_keeps rv cv t p k) as Hk. cbv zeta in Hk. fold p' in Hk.
  split; [tauto |]. split; [tauto |]. split; [tauto |].
  unfold animateParticles.
  split; [apply forEach_length | apply forEach_pointwise].
Qed.

Lemma respawn_reassigns_five_fields_witness :
  speed (fst (fst (update always_zero canvas_800x600 0 (ember_at (-10)) O)))
  = speed (ember_at (-10)).
Proof.
  assert (y (advance (fst (drawEmber (ember_at (-10)) 0)))
          < - size (advance (fst (drawEmber (ember_at (-10)) 0)))) as Hf.
  { pose proof (advance_fields (fst (drawEmber (ember_at (-10)) 0))) as H.
    cbv zeta in H. destruct H as [Hy [_ [Hsz _]]].
    rewrite Hy, Hsz. cbn [drawEmber fst size set_size y speed].
    rewrite (ember_at_radius (-10)). cbn. lra. }
  destruct (respawn_reassigns_five_fields
              always_zero canvas_800x600 0 (ember_at (-10)) [] O Hf)
    as [_ [_ [[_ [H _]] _]]].
  exact H.
Defined.

End EmberClaims3.


(* ================================================================== *)
(** * Further properties of the shaders *)
(* ================================================================== *)

Section ShaderExtras.
Import GLSL Smoke SmokeStages.

Lemma vec2_eq (p q : vec2) : vx p = vx q -> vy p = vy q -> p = q.
Proof. destruct p, q. cbn. intros -> ->. reflexivity. Qed.

Lemma rand_ext (p q : vec2) : vx p = vx q -> vy p = vy q -> rand p = rand q.
Proof. intros Hx Hy. rewrite (vec2_eq p q Hx Hy). reflexivity. Qed.

Lemma floor_in_cell (i : Z) (f : R) : 0 <= f < 1 -> floor (IZR i + f) = IZR i.
Proof.
  intros Hf. unfold floor. f_equal. apply Zfloor_eq. lra.
Qed.

(** [noise] inside the lattice cell [(i, j)], at offsets [(fx, fy)]. *)
Lemma noise_in_cell (p : vec2) (i j : Z) (fx fy : R) :
  vx p = IZR i + fx -> 0 <= fx < 1 ->
  vy p = IZR j + fy -> 0 <= fy < 1 ->
  noise p
  = noise_blend (rand (mkVec2 (IZR i) (IZR j)))
                (rand (mkVec2 (IZR i + 1) (IZR j)))
                (rand (mkVec2 (IZR i) (IZR j + 1)))
                (rand (mkVec2 (IZR i + 1) (IZR j + 1)))
                (mkVec2 (hermite fx) (hermite fy)).
Proof.
  intros Hx Hfx Hy Hfy. unfold noise. cbv zeta.
  unfold floor2, fract2, fract, add2. cbn [vx vy].
  rewrite Hx, Hy, (floor_in_cell i fx Hfx), (floor_in_cell j fy Hfy).
  replace (IZR i + fx - IZR i) with fx by ring.
  replace (IZR j + fy - IZR j) with fy by ring.
  f_equal; apply rand_ext; cbn [vx vy]; ring.
Qed.

Lemma hermite_complement (f : R) :
  0 <= f <= 1 -> 0 <= 1 - hermite f <= 9 / 8 * (1 - f).
Proof.
  intros [H0 H1]. unfold hermite.
  replace (1 - f * f * (3 - 2 * f)) with ((1 - f) * ((1 - f) * (1 + 2 * f)))
    by ring.
  assert (0 <= (1 - f) * (1 + 2 * f)) by (apply Rmult_le_pos; lra).
  assert ((1 - f) * (1 + 2 * f) <= 9 / 8).
  { assert (0 <= (f - 1 / 4) * (f - 1 / 4)) by apply Rle_0_sqr.
    lra. }
  split.
  - apply Rmult_le_pos; lra.
  - rewrite (Rmult_comm (9 / 8)). apply Rmult_le_compat_l; lra.
Qed.

(** Leaving a cell through its far side: the blend with weight [u] along
    one axis differs from the value on that side by at most [1 - u]. *)
Lemma blend_near_far_side (v0 v1 w0 w1 u s : R) :
  0 <= v0 <= 1 -> 0 <= v1 <= 1 -> 0 <= w0 <= 1 -> 0 <= w1 <= 1 ->
  0 <= u <= 1 -> 0 <= s <= 1 ->
  Rabs (mix (mix v0 v1 u) (mix w0 w1 u) s - mix v1 w1 s) <= 1 - u.
Proof.
  intros Hv0 Hv1 Hw0 Hw1 Hu Hs.
  assert (-1 <= mix (v0 - v1) (w0 - w1) s <= 1) as [Dlo Dhi].
  { apply mix_range; [assumption | lra | lra]. }
  replace (mix (mix v0 v1 u) (mix w0 w1 u) s - mix v1 w1 s)
    with ((1 - u) * mix (v0 - v1) (w0 - w1) s) by (unfold mix; ring).
  assert (0 <= (1 - u) * (1 - mix (v0 - v1) (w0 - w1) s))
    by (apply Rmult_le_pos; lra).
  assert (0 <= (1 - u) * (1 + mix (v0 - v1) (w0 - w1) s))
    by (apply Rmult_le_pos; lra).
  apply Rabs_le. split; lra.
Qed.

Lemma fbm_range (p : vec2) : 0 <= fbm p <= 0.65984.
Proof.
  unfold fbm, fbm_with, OCTAVES.
  assert (0 <= 0.4) as Hamp by lra.
  destruct (fbm_loop_bounds noise noise_range 5 0 0.4 p Hamp) as [Hlo Hhi].
  split; [exact Hlo |].
  eapply Rle_trans; [exact Hhi |]. cbn [pow]. lra.
Qed.

(** [main], in terms of its intermediate values. *)
Lemma main_by_stages (uv : vec2) (time : R) (vp : vec2) :
  main uv time vp
  = vec4_of
      (scale3
         (add3 (mix3 (splat3 0.3) (splat3 0.9) (ins uv time vp + 0.2))
               (splat3 (ins uv time vp - gradient uv vp)))
         (smoothstep 0.5 0 (vy uv)))
      (smoothstep 0.5 0 (vy uv)).
Proof. reflexivity. Qed.

End ShaderExtras.

Section ShaderExtraTheorems.
Import GLSL Smoke SmokeStages.

(** X1.  [rand] depends on its argument only through [p.x + 300 * p.y]:
    two coordinate pairs with the same value of it hash alike, so the
    hash repeats along the lattice direction (300, -1). *)
Theorem rand_repeats_along_300_minus_1 :
  forall p q : vec2,
    vx p + 300 * vy p = vx q + 300 * vy q ->
    rand p = rand q
    /\ rand (mkVec2 (vx p + 300) (vy p)) = rand (mkVec2 (vx p) (vy p + 1)).
Proof.
  intros p q H. unfold rand, dot. cbn [vx vy]. split; f_equal; f_equal.
  - f_equal. lra.
  - f_equal. lra.
Qed.

Lemma rand_repeats_along_300_minus_1_witness :
  rand (mkVec2 300 0) = rand (mkVec2 0 1).
Proof.
  destruct (rand_repeats_along_300_minus_1
              (mkVec2 300 0) (mkVec2 0 1) ltac:(cbn; lra)) as [H _].
  exact H.
Defined.

(** X2.  On a lattice point [noise] returns the hash of that point.
    Across a cell boundary it has no jump: approaching the next integer
    abscissa (or ordinate) from inside a cell, at offset [f] from the
    cell's near side, it is within [9/8 * (1 - f)] of its value on the
    boundary. *)
Theorem noise_continuous_across_cells :
  forall (m n : Z) (f s : R),
    0 <= f < 1 ->
    noise (mkVec2 (IZR m) (IZR n)) = rand (mkVec2 (IZR m) (IZR n))
    /\ Rabs (noise (mkVec2 (IZR m + f) s) - noise (mkVec2 (IZR m + 1) s))
       <= 9 / 8 * (1 - f)
    /\ Rabs (noise (mkVec2 s (IZR n + f)) - noise (mkVec2 s (IZR n + 1)))
       <= 9 / 8 * (1 - f).
Proof.
  intros m n f s Hf.
  set (j := Zfloor s). set (g := s - IZR j).
  assert (0 <= g < 1) as Hg.
  { unfold g, j. pose proof (Zfloor_bound s). lra. }
  assert (s = IZR j + g) as Hs by (unfold g; ring).
  assert (0 <= 0 < 1) as H01 by lra.
  assert (hermite 0 = 0) as Hh0 by (unfold hermite; ring).
  pose proof (hermite_range f ltac:(lra)) as Hhf.
  pose proof (hermite_range g ltac:(lra)) as Hhg.
  pose proof (hermite_complement f ltac:(lra)) as [_ Hc].
  split; [| split].
  - rewrite (noise_in_cell (mkVec2 (IZR m) (IZR n)) m n 0 0);
      cbn [vx vy]; try lra.
    rewrite Hh0. unfold noise_blend, mix. cbn [vx vy]. ring.
  - rewrite (noise_in_cell (mkVec2 (IZR m + f) s) m j f g);
      cbn [vx vy]; try assumption; try reflexivity.
    rewrite (noise_in_cell (mkVec2 (IZR m + 1) s) (m + 1) j 0 g);
      cbn [vx vy]; try assumption; [| rewrite plus_IZR; lra].
    rewrite !noise_blend_bilinear. unfold bilinear_reference. cbn [vx vy].
    rewrite Hh0, plus_IZR.
    replace (mix (mix (rand (mkVec2 (IZR m + 1) (IZR j)))
                      (rand (mkVec2 (IZR m + 1 + 1) (IZR j))) 0)
                 (mix (rand (mkVec2 (IZR m + 1) (IZR j + 1)))
                      (rand (mkVec2 (IZR m + 1 + 1) (IZR j + 1))) 0)
                 (hermite g))
      with (mix (rand (mkVec2 (IZR m + 1) (IZR j)))
                (rand (mkVec2 (IZR m + 1) (IZR j + 1))) (hermite g))
      by (unfold mix; ring).
    eapply Rle_trans; [| exact Hc].
    apply blend_near_far_side; try apply rand_range_closed; assumption.
  - rewrite (noise_in_cell (mkVec2 s (IZR n + f)) j n g f);
      cbn [vx vy]; try assumption; try reflexivity.
    rewrite (noise_in_cell (mkVec2 s (IZR n + 1)) j (n + 1) g 0);
      cbn [vx vy]; try assumption; [| rewrite plus_IZR; lra].
    rewrite !noise_blend_bilinear. unfold bilinear_reference. cbn [vx vy].
    rewrite Hh0, plus_IZR.
    set (a := rand (mkVec2 (IZR j) (IZR n))).
    set (b := rand (mkVec2 (IZR j + 1) (IZR n))).
    set (c := rand (mkVec2 (IZR j) (IZR n + 1))).
    set (d := rand (mkVec2 (IZR j + 1) (IZR n + 1))).
    set (c' := rand (mkVec2 (IZR j) (IZR n + 1 + 1))).
    set (d' := rand (mkVec2 (IZR j + 1) (IZR n + 1 + 1))).
    replace (mix (mix a b (hermite g)) (mix c d (hermite g)) (hermite f)
             - mix (mix c d (hermite g)) (mix c' d' (hermite g)) 0)
      with (mix (mix a c (hermite f)) (mix b d (hermite f)) (hermite g)
            - mix c d (hermite g))
      by (unfold mix; ring).
    eapply Rle_trans; [| exact Hc].
    pose proof (rand_range_closed (mkVec2 (IZR j) (IZR n))).
    pose proof (rand_range_closed (mkVec2 (IZR j + 1) (IZR n))).
    pose proof (rand_range_closed (mkVec2 (IZR j) (IZR n + 1))).
    pose proof (rand_range_closed (mkVec2 (IZR j + 1) (IZR n + 1))).
    replace (mix (mix a c (hermite f)) (mix b d (hermite f)) (hermite g)
             - mix c d (hermite g))
      with ((1 - hermite f) * mix (a - c) (b - d) (hermite g))
      by (unfold mix; ring).
    assert (-1 <= mix (a - c) (b - d) (hermite g) <= 1) as [Dlo Dhi].
    { apply mix_range; [assumption | |]; unfold a, b, c, d; lra. }
    assert (0 <= (1 - hermite f) * (1 - mix (a - c) (b - d) (hermite g)))
      by (apply Rmult_le_pos; lra).
    assert (0 <= (1 - hermite f) * (1 + mix (a - c) (b - d) (hermite g)))
      by (apply Rmult_le_pos; lra).
    apply Rabs_le. split; lra.
Qed.

Lemma noise_continuous_across_cells_witness :
  Rabs (noise (mkVec2 (IZR 2 + 3 / 4) 0) - noise (mkVec2 (IZR 2 + 1) 0))
  <= 9 / 8 * (1 - 3 / 4).
Proof.
  destruct (noise_continuous_across_cells 2 0 (3 / 4) 0 ltac:(lra))
    as [_ [H _]].
  exact H.
Defined.

(** X3.  Whatever the pixel, the time and the viewport: the three fbm
    samples of [main] satisfy [0 <= ns_a <= 0.65984],
    [-0.2 <= ns_b <= -0.134016] and [0 <= ins <= 0.65984], so the last
    look-up always starts in the lattice cell (-1, 0); the colour written
    is a grey (red, green and blue equal) of value
    [(0.42 + 1.6 * ins - gradient)] times alpha; alpha is in [0, 1]; and
    for [uv.y] in [0, 1] the gradient is in [0.1, 0.863936] and the grey
    written is between [-0.443936] and [1.375744] times alpha. *)
Theorem fragment_is_grey_times_alpha :
  forall (uv : vec2) (time : R) (vp : vec2),
    let c := main uv time vp in
    (fr c = fg c /\ fg c = fb c)
    /\ 0 <= fa c <= 1
    /\ fr c = (0.42 + 1.6 * ins uv time vp - gradient uv vp) * fa c
    /\ 0 <= ns_a uv time vp <= 0.65984
    /\ -0.2 <= ns_b uv time vp <= -0.134016
    /\ 0 <= ins uv time vp <= 0.65984
    /\ floor2 (mkVec2 (ns_b uv time vp) (ns_a uv time vp)) = mkVec2 (-1) 0
    /\ (0 <= vy uv <= 1 ->
        0.1 <= gradient uv vp <= 0.863936
        /\ -0.443936 * fa c <= fr c <= 1.375744 * fa c).
Proof.
  intros uv time vp c.
  assert (0 <= fa c <= 1) as Ha.
  { unfold c. rewrite main_by_stages. cbn [vec4_of fa].
    rewrite smoothstep_half_zero. apply hermite_range, clamp_range. }
  assert (fr c = (0.42 + 1.6 * ins uv time vp - gradient uv vp) * fa c) as Hr.
  { unfold c. rewrite main_by_stages.
    cbn [vec4_of scale3 add3 mix3 splat3 fr fa cr cg cb]. unfold mix. lra. }
  pose proof (fbm_range (fast uv time vp)) as Hnsa. fold (ns_a uv time vp) in Hnsa.
  pose proof (fbm_range
                (adds2 (adds2 (fast uv time vp) (ns_a uv time vp)) time)) as Hb.
  assert (-0.2 <= ns_b uv time vp <= -0.134016) as Hnsb
    by (unfold ns_b; lra).
  pose proof (fbm_range (mkVec2 (ns_b uv time vp) (ns_a uv time vp))) as Hins.
  fold (ins uv time vp) in Hins.
  split; [| split; [exact Ha | split; [exact Hr | split; [exact Hnsa |
          split; [exact Hnsb | split; [exact Hins | split]]]]]].
  - unfold c. rewrite main_by_stages.
    cbn [vec4_of scale3 add3 mix3 splat3 fr fg fb cr cg cb]. split; reflexivity.
  - unfold floor2, floor. cbn [vx vy]. apply vec2_eq; cbn [vx vy].
    + rewrite (Zfloor_eq (-1) (ns_b uv time vp)); [reflexivity | lra].
    + rewrite (Zfloor_eq 0 (ns_a uv time vp)); [reflexivity | lra].
  - intros Hy.
    pose proof (fbm_range (corrected uv vp)) as Hw.
    assert (0.1 <= gradient uv vp <= 0.863936) as Hg.
    { unfold gradient. cbv zeta. unfold mix.
      change (vy (corrected uv vp)) with (vy uv).
      set (w := fbm (corrected uv vp)) in *. set (v := vy uv) in *.
      assert (0 <= v * w) by (apply Rmult_le_pos; lra).
      assert (0 <= (1 - v) * w) by (apply Rmult_le_pos; lra).
      assert (0 <= v * (1 - w)) by (apply Rmult_le_pos; lra).
      assert (0 <= (1 - v) * (0.65984 - w)) by (apply Rmult_le_pos; lra).
      assert (0 <= v * (0.65984 - w)) by (apply Rmult_le_pos; lra).
      split; lra. }
    split; [exact Hg |].
    rewrite Hr.
    assert (0 <= (0.42 + 1.6 * ins uv time vp - gradient uv vp + 0.443936)
                 * fa c) by (apply Rmult_le_pos; lra).
    assert (0 <= (1.375744 - (0.42 + 1.6 * ins uv time vp - gradient uv vp))
                 * fa c) by (apply Rmult_le_pos; lra).
    split; lra.
Qed.

(** X4.  The picture depends on the viewport only through its aspect
    ratio: scaling width and height by the same non-zero factor leaves
    every fragment unchanged. *)
Theorem main_depends_on_aspect_ratio_only :
  forall (uv : vec2) (time : R) (vp : vec2) (k : R),
    k <> 0 -> vy vp <> 0 ->
    main uv time (scale2 vp k) = main uv time vp.
Proof.
  intros uv time vp k Hk Hh.
  assert (vx (scale2 vp k) / vy (scale2 vp k) = vx vp / vy vp) as E.
  { cbn [scale2 vx vy]. field. split; assumption. }
  unfold main, main_locals. rewrite E. reflexivity.
Qed.

Lemma main_depends_on_aspect_ratio_only_witness :
  main (mkVec2 (1 / 2) (1 / 4)) 3 (scale2 (mkVec2 1920 1080) 2)
  = main (mkVec2 (1 / 2) (1 / 4)) 3 (mkVec2 1920 1080).
Proof.
  apply (main_depends_on_aspect_ratio_only
           (mkVec2 (1 / 2) (1 / 4)) 3 (mkVec2 1920 1080) 2);
    cbn [vy]; lra.
Defined.

End ShaderExtraTheorems.

Section VertexExtras.
Import GLSL Vertex.

Lemma triangle_ids_0_6 : triangle_ids 0 6 = [(0, 1, 2); (3, 4, 5)]%nat.
Proof. reflexivity. Qed.

(** X5.  The draw call [drawArrays(TRIANGLES, 0, 6)] reads only the six
    defined vertices, and its two triangles cover the whole clip-space
    square and nothing else: a fragment is produced at a point exactly
    when both its coordinates are in [-1, 1], and the varying it receives
    is then [uv = 0.5 * point + 0.5], each component in [0, 1]. *)
Theorem two_triangles_cover_the_screen :
  forall clip uv_in : vec2,
    (rasterizes 0 6 clip uv_in
     <-> (-1 <= vx clip <= 1 /\ -1 <= vy clip <= 1
          /\ uv_in = adds2 (scale2 clip 0.5) 0.5))
    /\ (rasterizes 0 6 clip uv_in ->
        0 <= vx uv_in <= 1 /\ 0 <= vy uv_in <= 1)
    /\ main 6 = None
    /\ (forall i j k, In (i, j, k) (triangle_ids 0 6) ->
          main i <> None /\ main j <> None /\ main k <> None).
Proof.
  intros clip uv_in.
  assert (rasterizes 0 6 clip uv_in ->
          -1 <= vx clip <= 1 /\ -1 <= vy clip <= 1
          /\ uv_in = adds2 (scale2 clip 0.5) 0.5) as Hfwd.
  { intros (i & j & k & vi & vj & vk & a & b & c
            & Hin & Hi & Hj & Hk & Ha & Hb & Hc & Hsum & Hclip & Huv).
    rewrite triangle_ids_0_6 in Hin.
    destruct Hin as [E | [E | []]]; inversion E; subst i j k; clear E;
      cbn in Hi, Hj, Hk;
      inversion Hi; inversion Hj; inversion Hk; subst vi vj vk;
      subst clip uv_in;
      unfold interpolate, clip_xy, adds2, scale2;
      cbn [uv gl_Position vx vy fr fg];
      (split; [split; lra | split; [split; lra |]]);
      apply vec2_eq; cbn [vx vy]; lra. }
  split; [split; [exact Hfwd |] | split; [| split]].
  - intros [[Hx0 Hx1] [[Hy0 Hy1] Huv]].
    destruct (Rle_dec (vx clip + vy clip) 0) as [Hs | Hs].
    + exists 0%nat, 1%nat, 2%nat.
      do 3 eexists.
      exists (- (vx clip + vy clip) / 2), ((vx clip + 1) / 2),
             ((vy clip + 1) / 2).
      rewrite triangle_ids_0_6.
      split; [left; reflexivity |].
      split; [reflexivity |]. split; [reflexivity |]. split; [reflexivity |].
      split; [lra |]. split; [lra |]. split; [lra |]. split; [lra |].
      rewrite Huv.
      split; apply vec2_eq;
        unfold interpolate, clip_xy, adds2, scale2;
        cbn [uv gl_Position vx vy fr fg]; lra.
    + exists 3%nat, 4%nat, 5%nat.
      do 3 eexists.
      exists ((1 - vx clip) / 2), ((1 - vy clip) / 2),
             ((vx clip + vy clip) / 2).
      rewrite triangle_ids_0_6.
      split; [right; left; reflexivity |].
      split; [reflexivity |]. split; [reflexivity |]. split; [reflexivity |].
      split; [lra |]. split; [lra |]. split; [lra |]. split; [lra |].
      rewrite Huv.
      split; apply vec2_eq;
        unfold interpolate, clip_xy, adds2, scale2;
        cbn [uv gl_Position vx vy fr fg]; lra.
  - intros H. destruct (Hfwd H) as [Hx [Hy Huv]]. rewrite Huv.
    cbn [adds2 scale2 vx vy]. split; split; lra.
  - reflexivity.
  - intros i j k Hin. rewrite triangle_ids_0_6 in Hin.
    destruct Hin as [E | [E | []]]; inversion E; subst i j k;
      repeat split; discriminate.
Qed.

End VertexExtras.

(* ================================================================== *)
(** * Further properties of [WebGLHandler] *)
(* ================================================================== *)

Section HandlerExtras.
Import Handler HandlerRun.

Ltac run_io :=
  cbv [boot exec constructor _compile _resize requestAnimationFrame render
       bind ret emit get set_attached set_cn_size set_startTime
       set_raf_queue set_resize_listeners set_window_size fresh_page
       negb snd fst app source_of deliver call call_all
       log attached cn_width cn_height innerWidth innerHeight startTime
       raf_queue resize_listeners].

(** The same, keeping the appends to a log that is not known. *)
Ltac run_io_open :=
  cbv [exec _resize requestAnimationFrame render
       bind ret emit get set_attached set_cn_size set_startTime
       set_raf_queue set_resize_listeners set_window_size
       snd fst deliver call call_all
       log attached cn_width cn_height innerWidth innerHeight startTime
       raf_queue resize_listeners].

Lemma deliver_all_app (evs1 evs2 : list HostEvent) (w : World) :
  exec (deliver_all (evs1 ++ evs2)) w
  = exec (deliver_all evs2) (exec (deliver_all evs1) w).
Proof.
  revert w. induction evs1 as [|ev evs1 IH]; intros w.
  - reflexivity.
  - cbn [app deliver_all]. unfold exec, bind in *.
    destruct (deliver ev w) as [u w1]. apply IH.
Qed.

Lemma deliver_all_cons (ev : HostEvent) (evs : list HostEvent) (w : World) :
  exec (deliver_all (ev :: evs)) w
  = exec (deliver_all evs) (exec (deliver ev) w).
Proof.
  cbn [deliver_all]. unfold exec, bind. destruct (deliver ev w). reflexivity.
Qed.

Lemma deliver_all_snoc (evs : list HostEvent) (ev : HostEvent) (w : World) :
  exec (deliver_all (evs ++ [ev])) w
  = exec (deliver ev) (exec (deliver_all evs) w).
Proof.
  rewrite deliver_all_app, deliver_all_cons. reflexivity.
Qed.

(** An inert handler is left entirely alone by an event, but for the
    window size the page records. *)
Lemma deliver_inert_frame (ev : HostEvent) (w : World) :
  inert w ->
  let w' := exec (deliver ev) w in
  log w' = log w /\ inert w' /\ cn_width w' = cn_width w
  /\ cn_height w' = cn_height w /\ attached w' = attached w.
Proof.
  intros [Hq Hl]. destruct w as [lg att cw ch iw ih st q ls].
  cbn [raf_queue resize_listeners] in Hq, Hl. subst q ls.
  destruct ev; unfold inert; cbv; auto.
Qed.

Lemma deliver_all_inert_frame (evs : list HostEvent) :
  forall w, inert w ->
    let w' := exec (deliver_all evs) w in
    log w' = log w /\ inert w' /\ cn_width w' = cn_width w
    /\ cn_height w' = cn_height w /\ attached w' = attached w.
Proof.
  induction evs as [|ev evs IH]; intros w Hw.
  - cbv zeta. unfold exec. cbn. auto.
  - cbv zeta. rewrite deliver_all_cons.
    pose proof (deliver_inert_frame ev w Hw) as H. cbv zeta in H.
    destruct H as [H1 [H2 [H3 [H4 H5]]]].
    pose proof (IH _ H2) as H'. cbv zeta in H'.
    destruct H' as [H1' [H2' [H3' [H4' H5']]]].
    repeat split; try congruence; apply H2'.
Qed.

(** What one event does to a running handler. *)
Lemma deliver_running (ev : HostEvent) (w : World) :
  running w ->
  let w' := exec (deliver ev) w in
  running w'
  /\ startTime w' = startTime w
  /\ (innerWidth w', innerHeight w')
     = window_after (innerWidth w) (innerHeight w) [ev]
  /\ log w'
     = log w
       ++ match ev with
          | AnimationFrame now =>
              [uniform1f "time" (IZR (now - startTime w) / 1000);
               uniform2f "vp" (innerWidth w) (innerHeight w);
               drawArrays 0 6;
               requestAnimationFrame_render]
          | WindowResize iw ih => [viewport 0 0 iw ih]
          end.
Proof.
  intros (Hq & Hl & Hw & Hh). destruct w as [lg att cw ch iw ih st q ls].
  cbn [raf_queue resize_listeners cn_width cn_height innerWidth innerHeight]
    in Hq, Hl, Hw, Hh. subst q ls cw ch.
  destruct ev as [now | iw' ih']; unfold running; run_io_open;
    cbn [window_after]; rewrite <- ?app_assoc; cbn [app];
    repeat split; reflexivity.
Qed.

Lemma boot_running (host : Host) (iw ih : N) (now : Z) :
  setup_succeeds host ->
  running (boot host iw ih now)
  /\ startTime (boot host iw ih now) = now
  /\ innerWidth (boot host iw ih now) = iw
  /\ innerHeight (boot host iw ih now) = ih
  /\ log (boot host iw ih now)
     = [createProgram;
        createShader VERTEX_SHADER;
        shaderSource VERTEX_SHADER vertexShaderSource;
        compileShader VERTEX_SHADER;
        attachShader VERTEX_SHADER;
        createShader FRAGMENT_SHADER;
        shaderSource FRAGMENT_SHADER fragmentShaderSource;
        compileShader FRAGMENT_SHADER;
        attachShader FRAGMENT_SHADER;
        linkProgram;
        useProgram;
        getUniformLocation "time";
        getUniformLocation "vp";
        viewport 0 0 iw ih;
        addEventListener_resize;
        uniform1f "time" (IZR (now - now) / 1000);
        uniform2f "vp" iw ih;
        drawArrays 0 6;
        requestAnimationFrame_render].
Proof.
  intros (Hgl & Hv & Hf & Hl). unfold running. run_io.
  rewrite Hgl, Hv, Hf, Hl. repeat split; reflexivity.
Qed.

Lemma window_after_app (iw ih : N) (evs1 evs2 : list HostEvent) :
  window_after iw ih (evs1 ++ evs2)
  = window_after (fst (window_after iw ih evs1))
                 (snd (window_after iw ih evs1)) evs2.
Proof.
  revert iw ih. induction evs1 as [|[now | a b] evs1 IH]; intros iw ih;
    cbn [app window_after fst snd]; [reflexivity | apply IH | apply IH].
Qed.

(** The state of a running handler after any events. *)
Lemma run_running (host : Host) (iw ih : N) (now : Z) :
  setup_succeeds host ->
  forall evs,
    let w := run host iw ih now evs in
    running w /\ startTime w = now
    /\ (innerWidth w, innerHeight w) = window_after iw ih evs
    /\ List.length (draw_calls (log w)) = S (frame_count evs).
Proof.
  intros Hok evs. induction evs as [|ev evs IH] using rev_ind.
  - destruct (boot_running host iw ih now Hok) as (Hr & Hs & Hw & Hh & Hlog).
    cbv zeta. unfold run, exec. cbn [deliver_all ret snd].
    fold (exec (constructor host now) (fresh_page iw ih)).
    fold (boot host iw ih now).
    repeat split; try apply Hr; try assumption.
    + cbn [window_after]. congruence.
    + rewrite Hlog. reflexivity.
  - cbv zeta in *. unfold run in *. rewrite deliver_all_snoc.
    set (w := exec (deliver_all evs) (boot host iw ih now)) in *.
    destruct IH as (Hr & Hs & Hw & Hd).
    pose proof (deliver_running ev w Hr) as H. cbv zeta in H.
    destruct H as (Hr' & Hs' & Hw' & Hlog').
    split; [exact Hr' |]. split; [congruence |].
    split.
    + rewrite window_after_app, <- Hw. cbn [fst snd]. exact Hw'.
    + rewrite Hlog'. unfold draw_calls, frame_count in *.
      rewrite !filter_app, !length_app, Hd.
      destruct ev; cbn; lia.
Qed.

Lemma setup_succeeds_accepting_all : setup_succeeds host_accepting_all.
Proof. repeat split. Qed.

(** X6.  Without a WebGL 2 context the constructor returns at once: it
    makes no call, registers no callback or listener and leaves the
    canvas at its default size, and no later frame or resize makes the
    handler do anything. *)
Theorem no_context_no_calls :
  forall (host : Host) (iw ih : N) (now : Z) (evs : list HostEvent),
    has_webgl2 host = false ->
    let w := run host iw ih now evs in
    log w = [] /\ inert w /\ attached w = []
    /\ cn_width w = 300%N /\ cn_height w = 150%N.
Proof.
  intros host iw ih now evs Hgl w.
  assert (boot host iw ih now = fresh_page iw ih) as Hb.
  { run_io. rewrite Hgl. reflexivity. }
  pose proof (deliver_all_inert_frame evs (boot host iw ih now)) as H.
  cbv zeta in H. fold (run host iw ih now evs) in H. fold w in H.
  rewrite Hb in H. destruct H as (H1 & H2 & H3 & H4 & H5);
    [split; reflexivity |].
  repeat split; try assumption; apply H2.
Qed.

Lemma no_context_no_calls_witness :
  log (run host_without_webgl2 1920 1080 0
           [AnimationFrame 16; WindowResize 800 600]) = [].
Proof.
  destruct (no_context_no_calls
              host_without_webgl2 1920 1080 0
              [AnimationFrame 16; WindowResize 800 600] eq_refl)
    as [H _].
  exact H.
Defined.

(** X7.  When the context is available, both stages compile and the
    program links, the calls by which the constructor creates, changes
    or uses the context, the page and the scheduler are these, in this
    order (the status and info-log queries, which only read, are the
    host's answers and are not logged): both shaders are compiled and
    attached before the link, the program is put in use before the
    uniform locations are looked up, the canvas and the viewport are
    sized to the window before the first draw, and the first frame is
    drawn and the next one requested before the constructor returns.
    The time uniform of that first frame is the clock at the first
    [render()] minus the clock at the assignment of [startTime], over
    1000. *)
Theorem successful_setup_call_sequence :
  forall (host : Host) (iw ih : N) (start_clock render_clock : Z),
    setup_succeeds host ->
    let w := exec (constructor_at host start_clock render_clock)
                  (fresh_page iw ih) in
    log w
    = [createProgram;
       createShader VERTEX_SHADER;
       shaderSource VERTEX_SHADER vertexShaderSource;
       compileShader VERTEX_SHADER;
       attachShader VERTEX_SHADER;
       createShader FRAGMENT_SHADER;
       shaderSource FRAGMENT_SHADER fragmentShaderSource;
       compileShader FRAGMENT_SHADER;
       attachShader FRAGMENT_SHADER;
       linkProgram;
       useProgram;
       getUniformLocation "time";
       getUniformLocation "vp";
       viewport 0 0 iw ih;
       addEventListener_resize;
       uniform1f "time" (IZR (render_clock - start_clock) / 1000);
       uniform2f "vp" iw ih;
       drawArrays 0 6;
       requestAnimationFrame_render]
    /\ attached w = [VERTEX_SHADER; FRAGMENT_SHADER]
    /\ cn_width w = iw
    /\ cn_height w = ih
    /\ startTime w = start_clock
    /\ raf_queue w = [cb_render]
    /\ resize_listeners w = [cb_resize]
    /\ boot host iw ih start_clock
       = exec (constructor_at host start_clock start_clock)
              (fresh_page iw ih).
Proof.
  intros host iw ih start_clock render_clock (Hgl & Hv & Hf & Hlk) w.
  split; [| split; [| split; [| split; [| split; [| split; [| split]]]]]];
    unfold w, constructor_at; run_io; rewrite Hgl, Hv, Hf, Hlk;
    reflexivity.
Qed.

Lemma successful_setup_call_sequence_witness :
  startTime (exec (constructor_at host_accepting_all 1000 1003)
                  (fresh_page 1920 1080)) = 1000%Z
  /\ raf_queue (exec (constructor_at host_accepting_all 1000 1003)
                     (fresh_page 1920 1080)) = [cb_render].
Proof.
  destruct (successful_setup_call_sequence
              host_accepting_all 1920 1080 1000 1003
              setup_succeeds_accepting_all)
    as (_ & _ & _ & _ & H1 & H2 & _).
  split; [exact H1 | exact H2].
Defined.

(** X8.  Once set up, the render loop neither stops nor multiplies:
    after any sequence of frames and resizes exactly one frame callback
    is queued and one resize listener is registered, the canvas has the
    size of the window as the last resize left it, [startTime] is the
    time of construction, and the number of draw calls made is one more
    than the number of frames delivered. *)
Theorem render_loop_keeps_one_callback :
  forall (host : Host) (iw ih : N) (now : Z) (evs : list HostEvent),
    setup_succeeds host ->
    let w := run host iw ih now evs in
    raf_queue w = [cb_render]
    /\ resize_listeners w = [cb_resize]
    /\ (cn_width w, cn_height w) = window_after iw ih evs
    /\ (innerWidth w, innerHeight w) = window_after iw ih evs
    /\ startTime w = now
    /\ List.length (draw_calls (log w)) = S (frame_count evs).
Proof.
  intros host iw ih now evs Hok w.
  pose proof (run_running host iw ih now Hok evs) as H. cbv zeta in H.
  fold w in H. destruct H as ((Hq & Hl & Hw & Hh) & Hs & Hwin & Hd).
  repeat split; try assumption. rewrite Hw, Hh. exact Hwin.
Qed.

Lemma render_loop_keeps_one_callback_witness :
  List.length
    (draw_calls
       (log (run host_accepting_all 1920 1080 0
                 [AnimationFrame 16; WindowResize 800 600; AnimationFrame 33])))
  = 3%nat.
Proof.
  destruct (render_loop_keeps_one_callback
              host_accepting_all 1920 1080 0
              [AnimationFrame 16; WindowResize 800 600; AnimationFrame 33]
              setup_succeeds_accepting_all)
    as (_ & _ & _ & _ & _ & H).
  exact H.
Defined.

(** X9.  On a running handler each event adds exactly its own calls to
    those made before.  A frame at time [now'] uploads the time uniform
    [(now' - startTime) / 1000], then the viewport uniform with the
    current window size, then draws the six vertices, then requests the
    next frame.  A resize to [(iw', ih')] sets the viewport to that size
    and makes no draw call. *)
Theorem each_event_adds_its_calls :
  forall (host : Host) (iw ih : N) (now : Z)
         (evs : list HostEvent) (ev : HostEvent),
    setup_succeeds host ->
    log (run host iw ih now (evs ++ [ev]))
    = log (run host iw ih now evs)
      ++ match ev with
         | AnimationFrame now' =>
             [uniform1f "time" (IZR (now' - now) / 1000);
              uniform2f "vp" (fst (window_after iw ih evs))
                             (snd (window_after iw ih evs));
              drawArrays 0 6;
              requestAnimationFrame_render]
         | WindowResize iw' ih' => [viewport 0 0 iw' ih']
         end.
Proof.
  intros host iw ih now evs ev Hok.
  pose proof (run_running host iw ih now Hok evs) as H. cbv zeta in H.
  destruct H as (Hr & Hs & Hwin & _).
  unfold run in *. rewrite deliver_all_snoc.
  set (w := exec (deliver_all evs) (boot host iw ih now)) in *.
  pose proof (deliver_running ev w Hr) as H. cbv zeta in H.
  destruct H as (_ & _ & _ & Hlog).
  rewrite Hlog, Hs, <- Hwin. reflexivity.
Qed.

Lemma each_event_adds_its_calls_witness :
  log (run host_accepting_all 1920 1080 0 ([AnimationFrame 16]
                                          ++ [WindowResize 800 600]))
  = log (run host_accepting_all 1920 1080 0 [AnimationFrame 16])
    ++ [viewport 0 0 800 600].
Proof.
  exact (each_event_adds_its_calls
           host_accepting_all 1920 1080 0
           [AnimationFrame 16] (WindowResize 800 600)
           setup_succeeds_accepting_all).
Defined.

(** X10.  A shader that fails to compile does not stop the constructor:
    whatever the two compile results, it creates and compiles the vertex
    shader, then creates and compiles the fragment shader, then links the
    program. *)
Theorem failed_compile_does_not_stop_setup :
  forall (host : Host) (iw ih : N) (now : Z),
    has_webgl2 host = true ->
    exists rest,
      log (boot host iw ih now)
      = [createProgram;
         createShader VERTEX_SHADER;
         shaderSource VERTEX_SHADER vertexShaderSource;
         compileShader VERTEX_SHADER]
        ++ (if COMPILE_STATUS host VERTEX_SHADER vertexShaderSource
            then [attachShader VERTEX_SHADER]
            else [console_error
                    [shaderInfoLog host VERTEX_SHADER vertexShaderSource];
                  deleteShader VERTEX_SHADER])
        ++ [createShader FRAGMENT_SHADER;
            shaderSource FRAGMENT_SHADER fragmentShaderSource;
            compileShader FRAGMENT_SHADER]
        ++ (if COMPILE_STATUS host FRAGMENT_SHADER fragmentShaderSource
            then [attachShader FRAGMENT_SHADER]
            else [console_error
                    [shaderInfoLog host FRAGMENT_SHADER fragmentShaderSource];
                  deleteShader FRAGMENT_SHADER])
        ++ [linkProgram]
        ++ rest.
Proof.
  intros host iw ih now Hgl. run_io. rewrite Hgl.
  destruct (COMPILE_STATUS host VERTEX_SHADER vertexShaderSource);
    destruct (COMPILE_STATUS host FRAGMENT_SHADER fragmentShaderSource);
    match goal with
    | |- context [LINK_STATUS host ?att] => destruct (LINK_STATUS host att)
    end;
    eexists; cbn [app]; reflexivity.
Qed.

Lemma failed_compile_does_not_stop_setup_witness :
  In linkProgram (log (boot host_rejecting_fragment 1920 1080 0)).
Proof.
  destruct (failed_compile_does_not_stop_setup
              host_rejecting_fragment 1920 1080 0 eq_refl)
    as (rest & H).
  rewrite H. rewrite !in_app_iff. cbn [In]. tauto.
Defined.

(** X11.  Whenever the link status is false, whatever the compile
    results and whatever the driver's link rule, the constructor returns
    right after logging the program's info log: the program is never put
    in use, no viewport is set, nothing is drawn, no callback or listener
    is registered, the canvas keeps its default size, and no frame or
    resize delivered later makes the handler do anything. *)
Theorem link_failure_leaves_handler_inert :
  forall (host : Host) (iw ih : N) (now : Z) (evs : list HostEvent),
    has_webgl2 host = true ->
    LINK_STATUS host (attached (boot host iw ih now)) = false ->
    let w0 := boot host iw ih now in
    let w := run host iw ih now evs in
    inert w0
    /\ (exists before,
          log w0 = before
                   ++ [linkProgram;
                       console_error ["WebGL program failed to link:"%string;
                                      programInfoLog host (attached w0)]])
    /\ log w = log w0
    /\ ~ In useProgram (log w)
    /\ (forall x0 y0 a b, ~ In (viewport x0 y0 a b) (log w))
    /\ draw_calls (log w) = []
    /\ cn_width w = 300%N /\ cn_height w = 150%N.
Proof.
  intros host iw ih now evs Hgl Hlink w0 w.
  assert (inert w0
          /\ (exists before,
                log w0 = before
                   ++ [linkProgram;
                       console_error ["WebGL program failed to link:"%string;
                                      programInfoLog host (attached w0)]])
          /\ ~ In useProgram (log w0)
          /\ (forall x0 y0 a b, ~ In (viewport x0 y0 a b) (log w0))
          /\ draw_calls (log w0) = []
          /\ cn_width w0 = 300%N /\ cn_height w0 = 150%N) as H0.
  { assert (forall att,
              (LINK_STATUS host att = true ->
               attached (boot host iw ih now) = att -> False)) as Hcontra.
    { intros att E Ha. rewrite Ha in Hlink. congruence. }
    unfold w0, inert.
    destruct (COMPILE_STATUS host VERTEX_SHADER vertexShaderSource) eqn:Ev;
      destruct (COMPILE_STATUS host FRAGMENT_SHADER fragmentShaderSource)
        eqn:Ef;
      [ destruct (LINK_STATUS host [VERTEX_SHADER; FRAGMENT_SHADER]) eqn:E
      | destruct (LINK_STATUS host [VERTEX_SHADER]) eqn:E
      | destruct (LINK_STATUS host [FRAGMENT_SHADER]) eqn:E
      | destruct (LINK_STATUS host []) eqn:E ];
      try (exfalso; apply (Hcontra _ E); run_io;
           rewrite Hgl, Ev, Ef, E; reflexivity);
      run_io; rewrite Hgl, Ev, Ef, E;
      (split; [split; reflexivity |]);
      (split; [first [ eexists [_; _; _; _; _; _; _; _; _]; reflexivity
                     | eexists [_; _; _; _; _; _; _; _; _; _]; reflexivity
                     | eexists [_; _; _; _; _; _; _; _; _; _; _]; reflexivity ]
              |]);
      (split; [cbn [In]; intuition discriminate |]);
      (split; [intros x0 y0 a b; cbn [In]; intuition discriminate |]);
      repeat split; reflexivity. }
  destruct H0 as (Hin & Hlog & Hu & Hv & Hd & Hcw & Hch).
  pose proof (deliver_all_inert_frame evs w0 Hin) as H. cbv zeta in H.
  change (exec (deliver_all evs) w0) with w in H.
  destruct H as (H1 & _ & H3 & H4 & _).
  split; [exact Hin |]. split; [exact Hlog |]. split; [exact H1 |].
  rewrite H1, H3, H4. repeat split; assumption.
Qed.

Lemma link_failure_leaves_handler_inert_witness :
  cn_width (run host_rejecting_fragment 1920 1080 0 [WindowResize 800 600])
  = 300%N.
Proof.
  destruct (link_failure_leaves_handler_inert
              host_rejecting_fragment 1920 1080 0 [WindowResize 800 600]
              eq_refl eq_refl)
    as (_ & _ & _ & _ & _ & _ & H & _).
  exact H.
Defined.

End HandlerExtras.

(* ================================================================== *)
(** * Further properties of the ember particle system *)
(* ================================================================== *)

Section EmberExtras.
Import Ember.

Variable random_values : nat -> R.

Ltac run_rand :=
  unfold Ember.update, Ember.respawn, Ember.roll_loopRadius, Ember.bind,
         Ember.ret, Ember.Math_random.

(** The re-roll makes one or two draws. *)
Lemma roll_loopRadius_draws (k : nat) :
  snd (roll_loopRadius random_values k) = S k
  \/ snd (roll_loopRadius random_values k) = S (S k).
Proof.
  run_rand. destruct (Rlt_dec (random_values k) 0.4); cbn [snd]; auto.
Qed.

(** The two ways an update can go. *)
Lemma update_cases (cv : Canvas) (t : R) (p : Particle) (k : nat) :
  let q := advance (fst (drawEmber p t)) in
  let r := fst (respawn random_values cv q k) in
  let p' := fst (fst (update random_values cv t p k)) in
  let k' := snd (update random_values cv t p k) in
  (~ y q < - size q /\ p' = wrap cv q /\ k' = k)
  \/ (y q < - size q /\ p' = wrap cv r
      /\ (k' = S (S (S k)) \/ k' = S (S (S (S k))))).
Proof.
  cbv zeta. rewrite update_unfold. cbn [fst snd].
  destruct (Rlt_dec (y (advance (fst (drawEmber p t))))
                    (- size (advance (fst (drawEmber p t))))) as [H | H].
  - right. split; [exact H |]. split; [reflexivity |].
    pose proof (respawn_fires random_values cv _ k H) as Hf. cbv zeta in Hf.
    destruct Hf as (_ & _ & _ & _ & _ & Hk & _). rewrite Hk.
    destruct (roll_loopRadius_draws (S (S k))) as [E | E]; rewrite E; auto.
  - left. rewrite (respawn_skips random_values cv _ k H).
    split; [exact H |]. split; reflexivity.
Qed.

Lemma update_draws_monotone (cv : Canvas) (t : R) (p : Particle) (k : nat) :
  (k <= snd (update random_values cv t p k))%nat.
Proof.
  pose proof (update_cases cv t p k) as H. cbv zeta in H.
  destruct H as [(_ & _ & E) | (_ & _ & [E | E])]; rewrite E; lia.
Qed.

Lemma forEach_cons (cv : Canvas) (t : R) (p : Particle)
      (ps : list Particle) (k : nat) :
  forEach random_values cv t (p :: ps) k
  = (fst (fst (update random_values cv t p k))
       :: fst (fst (forEach random_values cv t ps
                            (snd (update random_values cv t p k)))),
     snd (fst (update random_values cv t p k))
       :: snd (fst (forEach random_values cv t ps
                            (snd (update random_values cv t p k)))),
     snd (forEach random_values cv t ps
                  (snd (update random_values cv t p k)))).
Proof.
  cbn [forEach]. unfold Ember.bind at 1.
  destruct (update random_values cv t p k) as [[p' a] k1].
  unfold Ember.bind at 1. cbn [fst snd].
  destruct (forEach random_values cv t ps k1) as [[ps' arcs] k2].
  reflexivity.
Qed.

Lemma forEach_draws_monotone (cv : Canvas) (t : R) (ps : list Particle) :
  forall k, (k <= snd (forEach random_values cv t ps k))%nat.
Proof.
  induction ps as [|p ps IH]; intros k.
  - cbn. lia.
  - rewrite forEach_cons. cbn [snd].
    pose proof (update_draws_monotone cv t p k).
    pose proof (IH (snd (update random_values cv t p k))). lia.
Qed.

Lemma animate_cons (cv : Canvas) (t : R) (frames : list (Canvas * R))
      (ps : list Particle) (k : nat) :
  animate random_values ((cv, t) :: frames) ps k
  = animate random_values frames
            (fst (fst (forEach random_values cv t ps k)))
            (snd (forEach random_values cv t ps k)).
Proof.
  cbn [animate]. unfold Ember.bind, animateParticles.
  destruct (forEach random_values cv t ps k) as [[ps' arcs] k1].
  cbn [fst snd]. reflexivity.
Qed.

Lemma animate_draws_monotone (frames : list (Canvas * R)) :
  forall ps k, (k <= snd (animate random_values frames ps k))%nat.
Proof.
  induction frames as [|[cv t] frames IH]; intros ps k.
  - cbn. lia.
  - rewrite animate_cons.
    pose proof (forEach_draws_monotone cv t ps k).
    pose proof (IH (fst (fst (forEach random_values cv t ps k)))
                   (snd (forEach random_values cv t ps k))). lia.
Qed.

(** What one frame paints. *)
Lemma forEach_arcs (cv : Canvas) (t : R) (ps : list Particle) :
  forall k,
    snd (fst (forEach random_values cv t ps k))
    = map (fun p => mkArc (x p) (y p) (baseSize p * flicker p t)) ps.
Proof.
  induction ps as [|p ps IH]; intros k.
  - reflexivity.
  - rewrite forEach_cons. cbn [fst snd map]. rewrite IH.
    rewrite update_unfold. reflexivity.
Qed.

End EmberExtras.

Section EmberExtraTheorems.
Import Ember.

Lemma random_in_range_always_zero : random_in_range always_zero.
Proof. intros k. unfold always_zero. lra. Qed.

Lemma scaled_draw (r w : R) : 0 <= r < 1 -> 0 <= w -> 0 <= r * w <= w.
Proof.
  intros [H0 H1] Hw.
  assert (0 <= r * w) by (apply Rmult_le_pos; assumption).
  assert (0 <= (1 - r) * w) by (apply Rmult_le_pos; lra).
  split; lra.
Qed.

Lemma angle_draw (r : R) : 0 <= r < 1 -> 0 <= r * PI * 2 < 2 * PI.
Proof.
  intros [H0 H1]. pose proof PI_RGT_0 as Hpi.
  assert (0 <= r * PI) by (apply Rmult_le_pos; lra).
  assert (0 < (1 - r) * PI) by (apply Rmult_lt_0_compat; lra).
  split; lra.
Qed.

Lemma new_particle_fresh (rv : nat -> R) (cv : Canvas) (k : nat) :
  random_in_range rv -> fresh_ember cv (fst (new_particle rv cv k)).
Proof.
  intros Hr. unfold fresh_ember, new_particle.
  unfold Ember.roll_loopRadius, Ember.bind, Ember.ret, Ember.Math_random.
  pose proof (widthR_nonneg cv) as Hw. pose proof (heightR_nonneg cv) as Hh.
  pose proof (Hr k) as H0. pose proof (Hr (S k)) as H1.
  pose proof (Hr (S (S k))) as H2. pose proof (Hr (S (S (S k)))) as H3.
  pose proof (Hr (S (S (S (S k))))) as H4.
  pose proof (Hr (S (S (S (S (S k)))))) as H5.
  pose proof (scaled_draw _ _ H1 Hw) as Hbx.
  pose proof (scaled_draw _ _ H2 Hh) as Hby.
  pose proof (angle_draw _ H5) as Hph.
  destruct (Rlt_dec (rv (S (S (S (S (S (S k))))))) 0.4) as [Hl | Hl];
    cbn [fst set_x baseX x y baseSize size speed drift flickerPhase
         loopRadius angle angularSpeed].
  - pose proof (Hr (S (S (S (S (S (S (S k)))))))) as H7.
    pose proof (Hr (S (S (S (S (S (S (S (S k))))))))) as H8.
    pose proof (Hr (S (S (S (S (S (S (S (S (S k)))))))))) as H9.
    pose proof (angle_draw _ H8) as Han.
    repeat split; lra.
  - pose proof (Hr (S (S (S (S (S (S (S k)))))))) as H7.
    pose proof (Hr (S (S (S (S (S (S (S (S k))))))))) as H8.
    pose proof (angle_draw _ H7) as Han.
    repeat split; lra.
Qed.

Lemma fresh_ember_lifelong (cv : Canvas) (p : Particle) :
  fresh_ember cv p -> lifelong p.
Proof. unfold fresh_ember, lifelong. intuition lra. Qed.

Lemma update_lifelong (rv : nat -> R) (cv : Canvas) (t : R)
      (p : Particle) (k : nat) :
  random_in_range rv -> lifelong p ->
  lifelong (fst (fst (update rv cv t p k))).
Proof.
  intros Hr (Hb & Hs & Hd & Hp & Ha & Hl & Hn).
  pose proof (update_keeps rv cv t p k) as Hk. cbv zeta in Hk.
  destruct Hk as (Eb & Ep & Es & Ed & Ea & _).
  pose proof (advance_fields (fst (drawEmber p t))) as Hadv.
  cbv zeta in Hadv. cbn [drawEmber fst] in Hadv.
  pose proof (update_cases rv cv t p k) as Hc. cbv zeta in Hc.
  cbn [drawEmber fst] in Hc.
  set (q := advance (set_size p (baseSize p * flicker p t))) in *.
  unfold lifelong. rewrite Eb, Ep, Es, Ed, Ea.
  do 5 (split; [assumption |]).
  destruct Hc as [(Hq & Hp' & _) | (Hq & Hp' & _)]; rewrite Hp'.
  - pose proof (wrap_keeps cv q) as Hw.
    destruct Hw as (_ & _ & _ & _ & _ & _ & _ & El & Ean & _).
    rewrite El, Ean.
    destruct Hadv as (_ & _ & _ & _ & _ & _ & Hlq & _ & Hloop & Hlin).
    cbn [set_size loopRadius angle angularSpeed] in Hlq, Hloop, Hlin.
    split; [rewrite Hlq; exact Hl |].
    destruct (Rlt_dec 0 (loopRadius p)) as [Hpos | Hpos].
    + destruct (Hloop Hpos) as (E & _). rewrite E. lra.
    + destruct (Hlin Hpos) as (E & _). rewrite E. exact Hn.
  - pose proof (wrap_keeps cv (fst (respawn rv cv q k))) as Hw.
    destruct Hw as (_ & _ & _ & _ & _ & _ & _ & El & Ean & _).
    rewrite El, Ean.
    pose proof (respawn_fires rv cv q k Hq) as Hf. cbv zeta in Hf.
    destruct Hf as (_ & _ & Eang & Eloop & _).
    rewrite Eang, Eloop. split.
    + destruct (roll_loopRadius_spec rv (S (S k)) Hr)
        as [(E & _) | (_ & E & _)]; [left | right]; assumption.
    + pose proof (angle_draw _ (Hr (S k))). lra.
Qed.

Lemma new_particles_length (rv : nat -> R) (cv : Canvas) :
  forall n k, List.length (fst (new_particles rv cv n k)) = n.
Proof.
  induction n as [|n IH]; intros k; [reflexivity |].
  cbn [new_particles]. unfold Ember.bind at 1.
  destruct (new_particle rv cv k) as [p k1].
  unfold Ember.bind at 1. specialize (IH k1).
  destruct (new_particles rv cv n k1) as [ps k2].
  cbn [Ember.ret fst List.length] in *. congruence.
Qed.

Lemma collection_lifelong (rv : nat -> R) (cv0 : Canvas)
      (frames : list (Canvas * R)) :
  random_in_range rv -> Forall lifelong (particles_after rv cv0 frames).
Proof.
  intros Hr. unfold particles_after, Ember.bind, init.
  pose proof (new_particles_invariant rv lifelong cv0
                (fun k => fresh_ember_lifelong cv0 _
                            (new_particle_fresh rv cv0 k Hr))
                EMBER_COUNT O) as H.
  destruct (new_particles rv cv0 EMBER_COUNT O) as [ps k1].
  apply animate_invariant; [| exact H].
  intros cv t p k Hp. apply update_lifelong; assumption.
Qed.

(** X12.  With [Math.random()] in [0, 1), start-up leaves 90 particles,
    each with base radius in [2, 5) and radius equal to it, anchor in
    [0, width], height in [0, canvas height], rise speed in [0.8, 2),
    drift in [-0.2, 0.2), flicker phase and angle in [0, 2 pi), loop
    radius 0 or in [8, 28), angular speed in [0.04, 0.12), and [x] at
    [baseX + sin(angle) * loopRadius]. *)
Theorem start_up_draws_fields_in_range :
  forall (random_values : nat -> R) (cv : Canvas) (k : nat),
    random_in_range random_values ->
    List.length (fst (init random_values cv k)) = 90%nat
    /\ Forall (fresh_ember cv) (fst (init random_values cv k)).
Proof.
  intros rv cv k Hr. unfold init. split.
  - apply new_particles_length.
  - apply new_particles_invariant. intros k0.
    apply new_particle_fresh. exact Hr.
Qed.

Lemma start_up_draws_fields_in_range_witness :
  List.length (fst (init always_zero canvas_800x600 O)) = 90%nat.
Proof.
  destruct (start_up_draws_fields_in_range
              always_zero canvas_800x600 O random_in_range_always_zero)
    as [H _].
  exact H.
Defined.

(** X13.  Through every frame and every change of canvas size the
    collection holds 90 particles, and each keeps a base radius in
    [2, 5), a rise speed in [0.8, 2), a drift in [-0.2, 0.2), a flicker
    phase in [0, 2 pi), an angular speed in [0.04, 0.12), a loop radius
    that is 0 or in [8, 28), and a non-negative angle. *)
Theorem collection_keeps_its_ranges :
  forall (random_values : nat -> R) (cv0 : Canvas)
         (frames : list (Canvas * R)),
    random_in_range random_values ->
    List.length (particles_after random_values cv0 frames) = 90%nat
    /\ Forall lifelong (particles_after random_values cv0 frames).
Proof.
  intros rv cv0 frames Hr. split.
  - apply collection_length.
  - apply collection_lifelong. exact Hr.
Qed.

Lemma collection_keeps_its_ranges_witness :
  Forall lifelong
         (particles_after always_zero canvas_800x600
                          [(canvas_800x600, 0); (mkCanvas 400 300, 16)]).
Proof.
  destruct (collection_keeps_its_ranges
              always_zero canvas_800x600
              [(canvas_800x600, 0); (mkCanvas 400 300, 16)]
              random_in_range_always_zero)
    as [_ H].
  exact H.
Defined.

(** X14.  After every frame, on the canvas as it is at that frame, each
    ember of the collection has [x] in [-10, width + 10], a radius in
    (0, 2.5), and [y >= -size]: none is left above the top edge by more
    than its radius. *)
Theorem embers_stay_in_band :
  forall (random_values : nat -> R) (cv0 cv : Canvas) (t : R)
         (frames : list (Canvas * R)),
    random_in_range random_values ->
    Forall (fun p => -10 <= x p <= widthR cv + 10
                     /\ 0 < size p < 2.5
                     /\ - size p <= y p)
           (particles_after random_values cv0 (frames ++ [(cv, t)])).
Proof.
  intros rv cv0 cv t frames Hr.
  pose proof (collection_lifelong rv cv0 frames Hr) as Hlife.
  unfold particles_after, Ember.bind in *.
  destruct (init rv cv0 O) as [ps k0].
  rewrite animate_app.
  destruct (animate rv frames ps k0) as [ps1 k1]. cbn [fst snd] in *.
  rewrite animate_cons. cbn [animate Ember.ret fst].
  apply (forEach_invariant rv lifelong); [| exact Hlife].
  intros p k (Hb & _).
  pose proof (update_keeps rv cv t p k) as Hk. cbv zeta in Hk.
  destruct Hk as (_ & _ & _ & _ & _ & Es).
  pose proof (flicker_range p t) as [Hf0 Hf1].
  assert (0 < baseSize p * flicker p t) as Hpos
    by (apply Rmult_lt_0_compat; lra).
  assert (0 < (5 - baseSize p) * flicker p t) as Hlt
    by (apply Rmult_lt_0_compat; lra).
  split.
  { rewrite update_unfold. cbn [fst]. apply wrap_range. }
  split; [rewrite Es; lra |].
  pose proof (update_cases rv cv t p k) as Hc. cbv zeta in Hc.
  pose proof (advance_fields (fst (drawEmber p t))) as Hadv.
  cbv zeta in Hadv. destruct Hadv as (_ & _ & Hsq & _).
  change (size (fst (drawEmber p t))) with (baseSize p * flicker p t) in Hsq.
  rewrite Es.
  destruct Hc as [(Hq & Hp' & _) | (Hq & Hp' & _)]; rewrite Hp'.
  - pose proof (wrap_keeps cv (advance (fst (drawEmber p t)))) as (_ & Ey & _).
    rewrite Ey. rewrite Hsq in Hq. lra.
  - pose proof (wrap_keeps cv
                  (fst (respawn rv cv (advance (fst (drawEmber p t))) k)))
      as (_ & Ey & _).
    rewrite Ey.
    pose proof (respawn_fires rv cv _ k Hq) as Hf. cbv zeta in Hf.
    destruct Hf as (Eyr & _). rewrite Eyr, Hsq.
    pose proof (heightR_nonneg cv). lra.
Qed.

Lemma embers_stay_in_band_witness :
  Forall (fun p => -10 <= x p <= widthR (mkCanvas 400 300) + 10
                   /\ 0 < size p < 2.5
                   /\ - size p <= y p)
         (particles_after always_zero canvas_800x600
                          ([(canvas_800x600, 0)] ++ [(mkCanvas 400 300, 16)])).
Proof.
  exact (embers_stay_in_band
           always_zero canvas_800x600 (mkCanvas 400 300) 16
           [(canvas_800x600, 0)] random_in_range_always_zero).
Defined.

End EmberExtraTheorems.

Section EmberExtraTheorems2.
Import Ember.

(** The state after the advance, in terms of the particle before. *)
Lemma advance_y_size (p : Particle) (t : R) :
  y (advance (fst (drawEmber p t))) = y p - speed p
  /\ size (advance (fst (drawEmber p t))) = baseSize p * flicker p t.
Proof.
  pose proof (advance_fields (fst (drawEmber p t))) as H. cbv zeta in H.
  destruct H as (Hy & _ & Hs & _). split; [exact Hy | exact Hs].
Qed.

Lemma update_without_respawn (rv : nat -> R) (cv : Canvas) (t : R)
      (p : Particle) (k : nat) :
  ~ y p - speed p < - (baseSize p * flicker p t) ->
  fst (fst (update rv cv t p k)) = wrap cv (advance (fst (drawEmber p t)))
  /\ snd (update rv cv t p k) = k.
Proof.
  intros H. destruct (advance_y_size p t) as [Ey Es].
  rewrite update_unfold. cbn [fst snd].
  rewrite respawn_skips; [split; reflexivity |].
  rewrite Ey, Es. exact H.
Qed.

Lemma update_quiet (rv : nat -> R) (cv : Canvas) (t : R)
      (p : Particle) (k : nat) :
  snd (update rv cv t p k) = k ->
  y (fst (fst (update rv cv t p k))) = y p - speed p
  /\ speed (fst (fst (update rv cv t p k))) = speed p
  /\ baseSize (fst (fst (update rv cv t p k))) = baseSize p
  /\ ~ y p - speed p < - (baseSize p * flicker p t).
Proof.
  intros Hk. destruct (advance_y_size p t) as [Ey Es].
  pose proof (update_keeps rv cv t p k) as Hkeep. cbv zeta in Hkeep.
  destruct Hkeep as (Eb & _ & Esp & _).
  pose proof (update_cases rv cv t p k) as Hc. cbv zeta in Hc.
  destruct Hc as [(Hq & Hp' & _) | (_ & _ & [E | E])]; try lia.
  rewrite Ey, Es in Hq.
  split; [| split; [exact Esp | split; [exact Eb | exact Hq]]].
  rewrite Hp'.
  pose proof (wrap_keeps cv (advance (fst (drawEmber p t)))) as (_ & E & _).
  rewrite E. exact Ey.
Qed.

Lemma forEach_quiet (rv : nat -> R) (cv : Canvas) (t : R)
      (ps : list Particle) :
  forall k,
    snd (forEach rv cv t ps k) = k ->
    Forall2 (fun p p' =>
               y p' = y p - speed p /\ speed p' = speed p
               /\ baseSize p' = baseSize p
               /\ ~ y p - speed p < - (baseSize p * flicker p t))
            ps (fst (fst (forEach rv cv t ps k))).
Proof.
  induction ps as [|p ps IH]; intros k Hk.
  - constructor.
  - rewrite forEach_cons in Hk |- *. cbn [fst snd] in Hk |- *.
    pose proof (update_draws_monotone rv cv t p k) as H1.
    pose proof (forEach_draws_monotone rv cv t ps
                  (snd (update rv cv t p k))) as H2.
    assert (snd (update rv cv t p k) = k) as E by lia.
    rewrite E in Hk |- *.
    constructor; [apply update_quiet; exact E | apply IH; exact Hk].
Qed.

(** X15.  After an update, an ember that has a loop radius sits on its
    orbit, at [baseX + sin(angle) * loopRadius], unless the wrap has just
    put it on the left or right margin; when that orbit point is within
    the margins it is therefore within [loopRadius] of its anchor. *)
Theorem looping_ember_stays_on_its_orbit :
  forall (random_values : nat -> R) (cv : Canvas) (t : R)
         (p : Particle) (k : nat),
    let p' := fst (fst (update random_values cv t p k)) in
    0 < loopRadius p' ->
    (x p' = baseX p' + sin (angle p') * loopRadius p'
     \/ x p' = widthR cv + 10 \/ x p' = -10)
    /\ (-10 <= baseX p' + sin (angle p') * loopRadius p' <= widthR cv + 10 ->
        x p' = baseX p' + sin (angle p') * loopRadius p'
        /\ Rabs (x p' - baseX p') <= loopRadius p').
Proof.
  intros rv cv t p k p' Hl.
  assert (exists z, p' = wrap cv z
                    /\ x z = baseX z + sin (angle z) * loopRadius z) as Hz.
  { pose proof (update_cases rv cv t p k) as Hc. cbv zeta in Hc.
    fold p' in Hc.
    destruct Hc as [(Hq & Hp' & _) | (Hq & Hp' & _)].
    - exists (advance (fst (drawEmber p t))). split; [exact Hp' |].
      pose proof (wrap_keeps cv (advance (fst (drawEmber p t)))) as Hw.
      rewrite <- Hp' in Hw.
      destruct Hw as (_ & _ & _ & _ & _ & _ & _ & El & _).
      pose proof (advance_fields (fst (drawEmber p t))) as Ha.
      cbv zeta in Ha.
      destruct Ha as (_ & _ & _ & _ & _ & _ & Elq & _ & Hloop & _).
      assert (0 < loopRadius (fst (drawEmber p t))) as Hpos by lra.
      destruct (Hloop Hpos) as (Ean & Ebx & Ex).
      rewrite Ex, Ean, Ebx, Elq. reflexivity.
    - exists (fst (respawn rv cv (advance (fst (drawEmber p t))) k)).
      split; [exact Hp' |].
      pose proof (respawn_fires rv cv _ k Hq) as Hf. cbv zeta in Hf.
      destruct Hf as (_ & _ & _ & _ & Ex & _). exact Ex. }
  destruct Hz as (z & Hp' & Ex).
  pose proof (wrap_keeps cv z) as Hw. rewrite <- Hp' in Hw.
  destruct Hw as (Ebx & _ & _ & _ & _ & _ & _ & El & Ean & _).
  pose proof (wrap_cases cv z) as (Hlo & Hhi & Hin).
  rewrite <- Hp' in Hlo, Hhi, Hin.
  rewrite Ebx, El, Ean, <- Ex.
  split.
  - destruct (Rlt_dec (x z) (-10)) as [H1 | H1]; [right; left; auto |].
    destruct (Rgt_dec (x z) (widthR cv + 10)) as [H2 | H2];
      [right; right; auto |].
    left. rewrite Hin by lra. reflexivity.
  - intros Hband. rewrite Hin by exact Hband. split; [reflexivity |].
    rewrite Ex. replace (baseX z + sin (angle z) * loopRadius z - baseX z)
      with (sin (angle z) * loopRadius z) by ring.
    pose proof (SIN_bound (angle z)) as [S0 S1].
    rewrite El in Hl.
    assert (0 <= (1 - sin (angle z)) * loopRadius z)
      by (apply Rmult_le_pos; lra).
    assert (0 <= (1 + sin (angle z)) * loopRadius z)
      by (apply Rmult_le_pos; lra).
    apply Rabs_le. split; lra.
Qed.

Lemma looping_ember_stays_on_its_orbit_witness :
  x (fst (fst (update always_zero canvas_800x600 0 looping_ember O)))
  = baseX (fst (fst (update always_zero canvas_800x600 0 looping_ember O)))
    + sin (angle (fst (fst (update always_zero canvas_800x600 0
                                   looping_ember O))))
      * loopRadius (fst (fst (update always_zero canvas_800x600 0
                                     looping_ember O)))
  \/ x (fst (fst (update always_zero canvas_800x600 0 looping_ember O)))
     = widthR canvas_800x600 + 10
  \/ x (fst (fst (update always_zero canvas_800x600 0 looping_ember O)))
     = -10.
Proof.
  assert (0 < loopRadius
                (fst (fst (update always_zero canvas_800x600 0
                                  looping_ember O)))) as Hl.
  { destruct (update_without_respawn always_zero canvas_800x600 0
                looping_ember O) as [E _].
    { rewrite flicker_at_clock_0 by reflexivity. cbn. lra. }
    rewrite E.
    pose proof (wrap_keeps canvas_800x600
                  (advance (fst (drawEmber looping_ember 0)))) as Hw.
    destruct Hw as (_ & _ & _ & _ & _ & _ & _ & El & _). rewrite El.
    pose proof (advance_fields (fst (drawEmber looping_ember 0))) as Ha.
    cbv zeta in Ha. destruct Ha as (_ & _ & _ & _ & _ & _ & Elq & _).
    rewrite Elq. cbn. lra. }
  destruct (looping_ember_stays_on_its_orbit
              always_zero canvas_800x600 0 looping_ember O Hl) as [H _].
  exact H.
Defined.

(** X16.  A frame paints every ember of the collection exactly once, in
    collection order, where the ember stood before this frame moved it,
    with the radius the flicker gives it at this frame; there are 90
    discs, each of a radius in (0, 2.5). *)
Theorem frame_paints_each_ember_once :
  forall (random_values : nat -> R) (cv0 cv : Canvas) (t : R)
         (frames : list (Canvas * R)) (ps0 : list Particle) (k : nat),
    random_in_range random_values ->
    let ps := particles_after random_values cv0 frames in
    snd (fst (animateParticles random_values cv t ps0 k))
    = map (fun p => mkArc (x p) (y p) (baseSize p * flicker p t)) ps0
    /\ List.length (snd (fst (animateParticles random_values cv t ps k)))
       = 90%nat
    /\ Forall (fun a => 0 < arc_r a < 2.5)
              (snd (fst (animateParticles random_values cv t ps k))).
Proof.
  intros rv cv0 cv t frames ps0 k Hr ps. unfold animateParticles.
  split; [apply forEach_arcs |].
  rewrite forEach_arcs. split.
  - rewrite length_map. apply collection_length.
  - apply Forall_map. cbn [arc_r].
    pose proof (collection_lifelong rv cv0 frames Hr) as Hlife.
    fold ps in Hlife. eapply Forall_impl; [| exact Hlife].
    intros p (Hb & _). pose proof (flicker_range p t) as [Hf0 Hf1].
    assert (0 < baseSize p * flicker p t)
      by (apply Rmult_lt_0_compat; lra).
    assert (0 < (5 - baseSize p) * flicker p t)
      by (apply Rmult_lt_0_compat; lra).
    lra.
Qed.

Lemma frame_paints_each_ember_once_witness :
  snd (fst (animateParticles always_zero canvas_800x600 0
                             [ember_at 5; looping_ember] O))
  = map (fun p => mkArc (x p) (y p) (baseSize p * flicker p 0))
        [ember_at 5; looping_ember].
Proof.
  destruct (frame_paints_each_ember_once
              always_zero canvas_800x600 canvas_800x600 0 []
              [ember_at 5; looping_ember] O random_in_range_always_zero)
    as [H _].
  exact H.
Defined.

(** X17.  Over any run of frames in which no [Math.random()] call is
    made, that is, in which no ember is respawned, every ember rises by
    exactly its speed at each frame and keeps its speed and base radius;
    and such a run of [n >= 1] frames has [n * speed <= y + baseSize / 2]
    for every ember of non-negative base radius, [y] being its height at
    the start: with a positive speed the run cannot go on for ever. *)
Theorem quiet_run_rises_by_speed :
  forall (random_values : nat -> R) (frames : list (Canvas * R))
         (ps : list Particle) (k : nat),
    snd (animate random_values frames ps k) = k ->
    Forall2 (fun p p' =>
               y p' = y p - INR (List.length frames) * speed p
               /\ speed p' = speed p
               /\ baseSize p' = baseSize p
               /\ (frames <> [] -> 0 <= baseSize p ->
                   INR (List.length frames) * speed p
                   <= y p + baseSize p / 2))
            ps (fst (animate random_values frames ps k)).
Proof.
  intros rv frames. induction frames as [|[cv t] frames IH]; intros ps k Hk.
  - cbn [animate Ember.ret fst List.length INR].
    clear Hk.
    induction ps as [|p ps IHps]; [constructor | constructor; [| exact IHps]].
    repeat split; try lra. intros H. contradiction H. reflexivity.
  - rewrite animate_cons in Hk |- *.
    pose proof (forEach_draws_monotone rv cv t ps k) as H1.
    pose proof (animate_draws_monotone rv frames
                  (fst (fst (forEach rv cv t ps k)))
                  (snd (forEach rv cv t ps k))) as H2.
    assert (snd (forEach rv cv t ps k) = k) as E by lia.
    rewrite E in Hk |- *.
    pose proof (forEach_quiet rv cv t ps k E) as Hstep.
    pose proof (IH _ _ Hk) as Hrest.
    set (ps1 := fst (fst (forEach rv cv t ps k))) in *.
    set (ps2 := fst (animate rv frames ps1 k)) in *.
    clearbody ps1 ps2. clear Hk H1 H2 E IH.
    revert ps2 Hrest.
    induction Hstep as [|p p1 ps ps1 (Ey & Es & Eb & Hq) _ IHs];
      intros ps2 Hrest; inversion Hrest as [|? p2 ? ps2' (Ey2 & Es2 & Eb2 & Hb2) Hr2];
      subst; constructor; [| apply IHs; assumption].
    change (List.length ((cv, t) :: frames)) with (S (List.length frames)).
    rewrite S_INR.
    split; [rewrite Ey2, Ey, Es; ring |].
    split; [congruence |]. split; [congruence |].
    intros _ Hpos.
    pose proof (flicker_range p t) as [Hf0 Hf1].
    assert (0 <= baseSize p * (0.5 - flicker p t))
      by (apply Rmult_le_pos; lra).
    destruct frames as [|f frames'].
    + cbn [List.length INR]. lra.
    + assert (f :: frames' <> []) as Hne by discriminate.
      rewrite Eb in Hb2. specialize (Hb2 Hne Hpos).
      rewrite Es, Ey in Hb2. lra.
Qed.

Lemma quiet_run_rises_by_speed_witness :
  Forall2 (fun p p' =>
             y p' = y p - INR (List.length [(canvas_800x600, 0)]) * speed p
             /\ speed p' = speed p
             /\ baseSize p' = baseSize p
             /\ ([(canvas_800x600, 0)] <> [] -> 0 <= baseSize p ->
                 INR (List.length [(canvas_800x600, 0)]) * speed p
                 <= y p + baseSize p / 2))
          [ember_at 5]
          (fst (animate always_zero [(canvas_800x600, 0)] [ember_at 5] O)).
Proof.
  apply (quiet_run_rises_by_speed
           always_zero [(canvas_800x600, 0)] [ember_at 5] O).
  rewrite animate_cons. cbn [animate Ember.ret snd].
  rewrite forEach_cons. cbn [forEach Ember.ret snd].
  apply update_without_respawn.
  rewrite ember_at_radius. cbn. lra.
Defined.

End EmberExtraTheorems2.
